(** * The job handler of [experimental/jobs/create-job-handler.ts]

    A shallow embedding of [createJobHandler], [createJobFactory] and
    [createLoggerJob], and the protocol properties of one job run.

    The source is written against RxJS.  What the embedding takes from
    that library is
    - the contract of a [Subscriber]: once [error] or [complete] has
      been called on it, [next], [error] and [complete] do nothing, and
      it is unsubscribed, which closes the subscription it was handed;
    - the contract of a [Subject]: its observers are notified until it
      is stopped;
    - [Subscription.unsubscribe]: idempotent, and nothing is delivered
      afterwards;
    - [new Observable(f)]: an exception thrown by [f] fails the stream;
    - [subscribe(callback)]: a callback that throws is unsubscribed and
      the exception is reported out of band;
    - [tap]: the notification is passed on unchanged unless the
      callback throws, in which case the stream fails with what was
      thrown.

    A run is driven by a schedule: the ordered list of everything that
    happens to it, that is inbound messages, calls the job body makes on
    its context, and the settling of the value the body returned.  A
    property proved for every schedule holds for every job body and
    every caller. *)

From Stdlib Require Import ZArith.
From stdpp Require Import base option list strings gmap.

Open Scope string_scope.
Open Scope list_scope.

(** ** Values *)

Set Warnings "-register-all".

(** Modelled from the spec: the structured-value type of [../../json],
    "a tree of null/bool/number/string/array/object".  The handler only
    passes such values on; numbers are kept as integers. *)
Inductive JsonValue : Type :=
| JsonNull
| JsonBool (b : bool)
| JsonNumber (n : Z)
| JsonString (s : string)
| JsonArray (items : list JsonValue)
| JsonObject (fields : list (string * JsonValue)).

(** Modelled from the spec: [JobDescription] of [./api] is "opaque,
    caller-supplied metadata"; [Partial<JobDescription>] is a JSON
    object, [{}] when the argument is omitted. *)
Definition JobDescription : Type := JsonValue.
Definition emptyObject : JobDescription := JsonObject [].

(** Modelled from the spec: an entry of the [Logger] of [../../logger]. *)
Record LogEntry : Type := { level : string; message : string }.

(** Exceptions: the one the code declares, the one the language raises
    when a [const] is read before the line that initialises it has run,
    and the one [JSON.stringify] raises. *)
Inductive Exception : Type :=
| ChannelAlreadyExistException (name : string)
| ReferenceError (binding : string)
| TypeError (text : string).

(** What a promise can reject with, a stream can fail with or a channel
    can be failed with: any value of the language, that is a JSON
    tree, an exception, or some other object, which need not be a tree
    (it may refer to itself). *)
Inductive JsAny : Type :=
| AnyJson (v : JsonValue)
| AnyException (e : Exception)
| AnyObject (tag : nat).

(** ** Messages *)

(** Modelled from the spec: the message kinds of [./api] that the
    handler reads and writes, "Ping { id }", "Stop {}", "Input { value }"
    inbound, and outbound "Start, Pong{id}, Log{entry}, Output{value},
    ChannelMessage{name,message}, ChannelError{name,error},
    ChannelComplete{name}, End", where "every variant carries the job's
    description". *)
Inductive JobInboundMessage : Type :=
| Ping (id : Z)
| Stop
| Input (value : JsonValue).

Inductive JobOutboundMessage : Type :=
| MsgStart (description : JobDescription)
| MsgPong (description : JobDescription) (id : Z)
| MsgLog (description : JobDescription) (entry : LogEntry)
| MsgOutput (description : JobDescription) (value : JsonValue)
| MsgChannelMessage (description : JobDescription) (name : string) (message : JsonValue)
| MsgChannelError (description : JobDescription) (name : string) (error : JsAny)
| MsgChannelComplete (description : JobDescription) (name : string)
| MsgEnd (description : JobDescription).

Definition isStart (m : JobOutboundMessage) : bool :=
  match m with MsgStart _ => true | _ => false end.
Definition isEnd (m : JobOutboundMessage) : bool :=
  match m with MsgEnd _ => true | _ => false end.
Definition isPong (m : JobOutboundMessage) : bool :=
  match m with MsgPong _ _ => true | _ => false end.
Definition isChannelComplete (m : JobOutboundMessage) : bool :=
  match m with MsgChannelComplete _ _ => true | _ => false end.

(** [Output], [Log] and the three channel kinds: the messages that the
    spec orders after [Start]. *)
Definition isPayload (m : JobOutboundMessage) : bool :=
  match m with
  | MsgLog _ _ | MsgOutput _ _ | MsgChannelMessage _ _ _
  | MsgChannelError _ _ _ | MsgChannelComplete _ _ => true
  | _ => false
  end.

Fixpoint count {A : Type} (p : A -> bool) (l : list A) : nat :=
  match l with
  | [] => 0
  | x :: l' => (if p x then 1 else 0) + count p l'
  end.

(** ** The state of one run *)

(** How the outbound stream ended: [subject.complete()] or
    [subject.error(err)]. *)
Inductive Termination : Type :=
| Completed
| Failed (err : JsAny).

(** A [Subject] made by [createChannel]; a handle is its index in the
    list of the subjects made so far. *)
Record ChannelSubject : Type := { ch_name : string; ch_open : bool }.

Record Run : Type := mkRun {
  outbound : list JobOutboundMessage; (* delivered by [subject.next] *)
  terminal : option Termination;      (* [subject] is stopped, and how *)
  inbound_open : bool;                (* the subscription to [inboundBus] *)
  channels : option (list (string * nat)); (* the [Map], in insertion order;
                                         [None] until line 113 has run *)
  subjects : list ChannelSubject;
  subscription : option bool;         (* the variable: [None] is undefined,
                                         [Some false] a closed subscription *)
  promise : bool;                     (* callbacks wait on a pending promise *)
  inputChannel : list JsonValue;      (* values pushed into [inputChannel] *)
  uncaught : list Exception           (* thrown out of the inbound callback *)
}.

Definition set_outbound (o : list JobOutboundMessage) (s : Run) : Run :=
  mkRun o (terminal s) (inbound_open s) (channels s) (subjects s)
        (subscription s) (promise s) (inputChannel s) (uncaught s).
Definition set_terminal (t : option Termination) (s : Run) : Run :=
  mkRun (outbound s) t (inbound_open s) (channels s) (subjects s)
        (subscription s) (promise s) (inputChannel s) (uncaught s).
Definition set_inbound_open (b : bool) (s : Run) : Run :=
  mkRun (outbound s) (terminal s) b (channels s) (subjects s)
        (subscription s) (promise s) (inputChannel s) (uncaught s).
Definition set_channels (c : option (list (string * nat))) (s : Run) : Run :=
  mkRun (outbound s) (terminal s) (inbound_open s) c (subjects s)
        (subscription s) (promise s) (inputChannel s) (uncaught s).
Definition set_subjects (l : list ChannelSubject) (s : Run) : Run :=
  mkRun (outbound s) (terminal s) (inbound_open s) (channels s) l
        (subscription s) (promise s) (inputChannel s) (uncaught s).
Definition set_subscription (u : option bool) (s : Run) : Run :=
  mkRun (outbound s) (terminal s) (inbound_open s) (channels s) (subjects s)
        u (promise s) (inputChannel s) (uncaught s).
Definition set_promise (b : bool) (s : Run) : Run :=
  mkRun (outbound s) (terminal s) (inbound_open s) (channels s) (subjects s)
        (subscription s) b (inputChannel s) (uncaught s).
Definition set_inputChannel (l : list JsonValue) (s : Run) : Run :=
  mkRun (outbound s) (terminal s) (inbound_open s) (channels s) (subjects s)
        (subscription s) (promise s) l (uncaught s).
Definition set_uncaught (l : list Exception) (s : Run) : Run :=
  mkRun (outbound s) (terminal s) (inbound_open s) (channels s) (subjects s)
        (subscription s) (promise s) (inputChannel s) l.

Definition isStopped (s : Run) : bool :=
  match terminal s with None => false | Some _ => true end.

(** The state when the function given to [new Observable] is entered. *)
Definition initial : Run :=
  mkRun [] None true None [] None false [] [].

(** ** The events of a run *)

(** What the job body hands back to [createJobHandler] (line 148): a
    plain value, a promise, an observable, or nothing because it threw. *)
Inductive JobResult : Type :=
| ReturnsScalar (value : JsonValue)
| ReturnsPromise
| ReturnsObservable
| Throws (err : JsAny).

Inductive Event : Type :=
| Inbound (msg : JobInboundMessage)           (* [inboundBus] delivers *)
| CallCreateChannel (name : string)           (* [context.createChannel(name)] *)
| ChannelNext (handle : nat) (value : JsonValue)
| ChannelFail (handle : nat) (error : JsAny)
| ChannelDone (handle : nat)
| LoggerEntry (entry : LogEntry)              (* [context.logger] logs *)
| PromiseResolve (value : JsonValue)
| PromiseReject (err : JsAny)
| StreamNext (value : JsonValue)
| StreamError (err : JsAny)
| StreamComplete.

(** The job body as the handler sees it: what it does on its context
    while it is being called, and what it hands back. *)
Record Body : Type := { sync : list Event; result : JobResult }.

(** The surroundings of one subscription: the inbound messages that
    [inboundBus] delivers while it is being subscribed to (line 76),
    and everything that happens once the subscribe function has
    returned. *)
Record Schedule : Type := { early : list JobInboundMessage; later : list Event }.

Section JobRun.

Variable description : JobDescription.

(** *** The outbound subscriber, [subject] *)

Definition subject_next (m : JobOutboundMessage) (s : Run) : Run :=
  if isStopped s then s else set_outbound (outbound s ++ [m]) s.

(** Stopping the subscriber unsubscribes it, which closes the
    subscription line 166 returned to it. *)
Definition teardown (s : Run) : Run :=
  match subscription s with
  | Some _ => set_subscription (Some false) s
  | None => s
  end.

Definition subject_complete (s : Run) : Run :=
  if isStopped s then s else teardown (set_terminal (Some Completed) s).

Definition subject_error (err : JsAny) (s : Run) : Run :=
  if isStopped s then s else teardown (set_terminal (Some (Failed err)) s).

(** *** The map [channels] *)

Definition map_has (name : string) (m : list (string * nat)) : bool :=
  existsb (fun p => String.eqb (fst p) name) m.

Fixpoint map_set (name : string) (h : nat) (m : list (string * nat)) : list (string * nat) :=
  match m with
  | [] => [(name, h)]
  | (k, v) :: m' => if String.eqb k name then (k, h) :: m' else (k, v) :: map_set name h m'
  end.

Fixpoint map_delete (name : string) (m : list (string * nat)) : list (string * nat) :=
  match m with
  | [] => []
  | (k, v) :: m' => if String.eqb k name then m' else (k, v) :: map_delete name m'
  end.

Definition channels_delete (name : string) (s : Run) : Run :=
  set_channels (map_delete name <$> channels s) s.

(** *** A channel subject and the three callbacks of lines 125-139 *)

Definition close_subject (h : nat) (s : Run) : Run :=
  match subjects s !! h with
  | Some c => set_subjects (<[h := {| ch_name := ch_name c; ch_open := false |}]> (subjects s)) s
  | None => s
  end.

Definition channel_next (h : nat) (message : JsonValue) (s : Run) : Run :=
  match subjects s !! h with
  | Some c =>
      if ch_open c
      then subject_next (MsgChannelMessage description (ch_name c) message) s
      else s
  | None => s
  end.

Definition channel_error (h : nat) (error : JsAny) (s : Run) : Run :=
  match subjects s !! h with
  | Some c =>
      if ch_open c
      then channels_delete (ch_name c)
             (subject_next (MsgChannelError description (ch_name c) error)
                (close_subject h s))
      else s
  | None => s
  end.

Definition channel_complete (h : nat) (s : Run) : Run :=
  match subjects s !! h with
  | Some c =>
      if ch_open c
      then channels_delete (ch_name c)
             (subject_next (MsgChannelComplete description (ch_name c))
                (close_subject h s))
      else s
  | None => s
  end.

(** [channels.forEach(x => x.complete())]: the entries are visited in
    insertion order, and one that a callback has deleted in the
    meantime is skipped. *)
Fixpoint forEach_complete (todo : list (string * nat)) (s : Run) : Run :=
  match todo with
  | [] => s
  | (name, h) :: todo' =>
      match channels s with
      | Some m =>
          if existsb (fun p => String.eqb (fst p) name && Nat.eqb (snd p) h) m
          then forEach_complete todo' (channel_complete h s)
          else forEach_complete todo' s
      | None => forEach_complete todo' s
      end
  end.

(** *** [createChannel] (lines 119-145) *)

Definition createChannel (name : string) (s : Run) : Exception + (nat * Run) :=
  match channels s with
  | None => inl (ReferenceError "channels")
  | Some m =>
      if map_has name m
      then inl (ChannelAlreadyExistException name)
      else
        let h := length (subjects s) in
        inr (h, set_channels (Some (map_set name h m))
                  (set_subjects (subjects s ++ [{| ch_name := name; ch_open := true |}]) s))
  end.

(** *** The inbound callback (lines 76-98) *)

Definition unsubscribe (s : Run) : Run :=
  match subscription s with
  | Some _ => set_subscription (Some false) s
  | None => s
  end.

Definition onInbound (msg : JobInboundMessage) (s : Run) : Run * option Exception :=
  match msg with
  | Ping id => (subject_next (MsgPong description id) s, None)
  | Stop =>
      let s1 := unsubscribe s in
      let s2 := subject_next (MsgEnd description) s1 in
      let s3 := subject_complete s2 in
      match channels s3 with
      | Some m => (forEach_complete m s3, None)
      | None => (s3, Some (ReferenceError "channels"))
      end
  | Input value => (set_inputChannel (inputChannel s ++ [value]) s, None)
  end.

(** [inboundBus] delivers a message to the callback.  A callback that
    throws is unsubscribed and the exception is reported out of band. *)
Definition deliver (msg : JobInboundMessage) (s : Run) : Run :=
  if inbound_open s
  then match onInbound msg s with
       | (s', None) => s'
       | (s', Some e) => set_uncaught (uncaught s' ++ [e]) (set_inbound_open false s')
       end
  else s.

(** *** One event *)

(** A call of the body on its context runs the code of lines 102-108
    or 119-145; the settling of a promise or of a stream runs the
    callbacks of lines 151-155 or 158-163, if they are still waiting. *)
Definition step (s : Run) (e : Event) : Run :=
  match e with
  | Inbound msg => deliver msg s
  | CallCreateChannel name =>
      match createChannel name s with
      | inr (_, s') => s'
      | inl _ => s
      end
  | ChannelNext h message => channel_next h message s
  | ChannelFail h error => channel_error h error s
  | ChannelDone h => channel_complete h s
  | LoggerEntry entry => subject_next (MsgLog description entry) s
  | PromiseResolve value =>
      if promise s
      then subject_complete
             (subject_next (MsgEnd description)
                (subject_next (MsgOutput description value) (set_promise false s)))
      else s
  | PromiseReject err =>
      if promise s then subject_error err (set_promise false s) else s
  | StreamNext value =>
      match subscription s with
      | Some true => subject_next (MsgOutput description value) s
      | _ => s
      end
  | StreamError err =>
      match subscription s with
      | Some true => subject_error err (set_subscription (Some false) s)
      | _ => s
      end
  | StreamComplete =>
      match subscription s with
      | Some true =>
          subject_complete
            (subject_next (MsgEnd description) (set_subscription (Some false) s))
      | _ => s
      end
  end.

Definition steps (s : Run) (es : list Event) : Run := foldl step s es.

(** *** The subscribe function (lines 74-173) *)

(** Lines 150-172, on what the body handed back.  A promise gets its
    two callbacks (lines 151-155) and an observable its three (lines
    157-164), which [step] runs when it settles; the subscription to
    the observable is returned to the subscriber, which closes it at
    once if it has stopped by then.  A plain value is reported on the
    spot (lines 169-171).  An exception leaves the subscribe function
    and fails the stream. *)
Definition dispatch (r : JobResult) (s : Run) : Run :=
  match r with
  | ReturnsPromise => set_promise true s
  | ReturnsObservable => set_subscription (Some (negb (isStopped s))) s
  | ReturnsScalar value =>
      subject_complete
        (subject_next (MsgEnd description)
           (subject_next (MsgOutput description value) s))
  | Throws err => subject_error err s
  end.

(** Lines 76-148: subscribe to [inboundBus], make the logger, send
    [Start], make the map, call the body. *)

Definition subscribe (body : Body) (early_msgs : list JobInboundMessage) : Run :=
  let s1 := foldl (fun s m => deliver m s) initial early_msgs in
  let s2 := subject_next (MsgStart description) s1 in
  let s3 := set_channels (Some []) s2 in
  let s4 := steps s3 (sync body) in
  dispatch (result body) s4.

(** The whole run: subscription, then the rest of the schedule. *)
Definition run (body : Body) (sched : Schedule) : Run :=
  steps (subscribe body (early sched)) (later sched).

End JobRun.

(** ** Handlers *)

(** What a subscriber of an outbound stream gets to see. *)
Record Trace : Type := {
  delivered : list JobOutboundMessage;
  ending : option Termination
}.

Definition observe (s : Run) : Trace :=
  {| delivered := outbound s; ending := terminal s |}.

(** Modelled from the spec: the [JobHandlerContext] of [./api], "a
    context (carrying job metadata and the inbound message source)".
    The description is a field; what [inboundBus] delivers is the
    inbound part of the schedule. *)
Record JobHandlerContext : Type := { ctx_description : JobDescription }.

(** A cold observable: each subscription is given its own schedule. *)
Definition Observable : Type := Schedule -> Trace.

(** A handler is a function that also has properties of its own. *)
Record JobHandler : Type := {
  call : JsonValue -> JobHandlerContext -> Observable;
  properties : gmap string JsonValue
}.

Definition SimpleJobHandlerFn : Type := JsonValue -> JobHandlerContext -> Body.

(** [Object.assign(target, source)] on the properties: those of the
    source are copied over those of the target. *)
Definition Object_assign (target source : gmap string JsonValue) : gmap string JsonValue :=
  source ∪ target.

Definition jobDescription (h : JobHandler) : option JsonValue :=
  properties h !! "jobDescription".

(** [createJobHandler(fn, options = {})] (lines 64-177). *)
Definition createJobHandler (fn : SimpleJobHandlerFn) (options : option JobDescription) : JobHandler :=
  let handler argument context : Observable :=
    fun sched => observe (run (ctx_description context) (fn argument context) sched) in
  {| call := handler;
     properties := Object_assign ∅ {[ "jobDescription" := default emptyObject options ]} |}.

(** [createJobFactory(loader, options)] (lines 185-195).  The promise
    [loader()] returns resolves with a handler, rejects, or stays
    pending. *)
Inductive Loaded : Type :=
| LoadResolves (h : JobHandler)
| LoadRejects (err : JsAny)
| LoadPending.

Definition createJobFactory (loader : unit -> Loaded) (options : JobDescription) : JobHandler :=
  let handler argument context : Observable :=
    fun sched =>
      match loader tt with
      | LoadResolves fn => call fn argument context sched
      | LoadRejects err => {| delivered := []; ending := Some (Failed err) |}
      | LoadPending => {| delivered := []; ending := None |}
      end in
  {| call := handler;
     properties := Object_assign ∅ {[ "jobDescription" := options ]} |}.

(** *** [createLoggerJob] (lines 202-221) *)

(** Modelled from the spec: the [LoggerApi] of [../../logger] as a "log
    sink": the lines written so far, each with its level. *)
Definition LoggerApi : Type := list (string * string).

Definition logger_info (text : string) (l : LoggerApi) : LoggerApi := (l ++ [("info", text)])%list.
Definition logger_warn (text : string) (l : LoggerApi) : LoggerApi := (l ++ [("warn", text)])%list.

Section Tap.

Context {L : Type}.

(** The callbacks of [tap] act on a sink and may throw. *)
Variable onNext : JobOutboundMessage -> L -> JsAny + L.
Variable onError : JsAny -> L -> JsAny + L.
Variable onComplete : L -> JsAny + L.

(** [tap] on the values: each is passed on after its callback; a
    callback that throws fails the stream in place of the value. *)
Fixpoint tap_values (ms : list JobOutboundMessage) (l : L)
  : list JobOutboundMessage * option JsAny * L :=
  match ms with
  | [] => ([], None, l)
  | m :: ms' =>
      match onNext m l with
      | inl thrown => ([], Some thrown, l)
      | inr l1 =>
          let '(out, failure, l2) := tap_values ms' l1 in
          (m :: out, failure, l2)
      end
  end.

Definition tap (t : Trace) (l : L) : Trace * L :=
  match tap_values (delivered t) l with
  | (out, Some thrown, l1) => ({| delivered := out; ending := Some (Failed thrown) |}, l1)
  | (out, None, l1) =>
      match ending t with
      | None => ({| delivered := out; ending := None |}, l1)
      | Some Completed =>
          match onComplete l1 with
          | inl thrown => ({| delivered := out; ending := Some (Failed thrown) |}, l1)
          | inr l2 => ({| delivered := out; ending := Some Completed |}, l2)
          end
      | Some (Failed err) =>
          match onError err l1 with
          | inl thrown => ({| delivered := out; ending := Some (Failed thrown) |}, l1)
          | inr l2 => ({| delivered := out; ending := Some (Failed err) |}, l2)
          end
      end
  end.

End Tap.

Section LoggerJob.

(** [JSON.stringify] on what the wrapper prints.  It returns the text,
    or throws (on a value that is not a tree, for one). *)
Variable stringify_message : JobOutboundMessage -> JsAny + string.
Variable stringify_error : JsAny -> JsAny + string.

Definition log_message (m : JobOutboundMessage) (l : LoggerApi) : JsAny + LoggerApi :=
  match stringify_message m with
  | inl thrown => inl thrown
  | inr text => inr (logger_info ("Message: " +:+ text) l)
  end.

Definition log_error (err : JsAny) (l : LoggerApi) : JsAny + LoggerApi :=
  match stringify_error err with
  | inl thrown => inl thrown
  | inr text => inr (logger_warn ("Error: " +:+ text) l)
  end.

Definition log_completed (l : LoggerApi) : JsAny + LoggerApi :=
  inr (logger_info "Completed" l).

(** Lines 211-217, the tap on the stream of the wrapped handler: the
    stream that is passed on, and the lines this tap writes to the
    logger, in the order in which it writes them.  They are not all
    that the logger receives: the lines of [createLoggerJob_inbound]
    arrive in between, as the inbound messages come. *)
Definition createLoggerJob_outbound (job : JobHandler)
    (argument : JsonValue) (context : JobHandlerContext) (sched : Schedule)
  : Trace * list (string * string) :=
  tap log_message log_error log_completed (call job argument context sched) [].

(** [createLoggerJob(job, logger)]: what its handler returns is the
    first component above; [logger] is where the two taps write. *)
Definition createLoggerJob (job : JobHandler) (logger : LoggerApi) : JobHandler :=
  let handler argument context : Observable :=
    fun sched => fst (createLoggerJob_outbound job argument context sched) in
  {| call := handler;
     properties := Object_assign ∅ (properties job) |}.

End LoggerJob.

Section LoggerInbound.

(** [JSON.stringify] on an inbound message. *)
Variable stringify_inbound : JobInboundMessage -> JsAny + string.

(** Lines 207-209, the tap on [inboundBus]: the lines it writes to the
    logger for the messages the bus delivers, one per message.  The
    subscription has no error callback, so a callback that throws ends
    it and the later messages are not logged. *)
Fixpoint createLoggerJob_inbound (msgs : list JobInboundMessage) : list (string * string) :=
  match msgs with
  | [] => []
  | m :: msgs' =>
      match stringify_inbound m with
      | inl _ => []
      | inr text => ("info", "Input: " +:+ text) :: createLoggerJob_inbound msgs'
      end
  end.

End LoggerInbound.

(** ** Notions used to state the properties *)

(** Two states show the subscriber the same thing. *)
Definition same_stream (s s' : Run) : Prop :=
  outbound s' = outbound s /\ terminal s' = terminal s.

(** A list of messages with neither [Start] nor [End] in it. *)
Definition clean (l : list JobOutboundMessage) : Prop :=
  count isStart l = 0 /\ count isEnd l = 0.

(** From [s] to [s'] the stream got some clean messages, followed by
    [End] exactly when [s'] has completed. *)
Definition emits (d : JobDescription) (s s' : Run) : Prop :=
  exists l, clean l /\
    match terminal s' with
    | Some Completed => outbound s' = outbound s ++ l ++ [MsgEnd d]
    | _ => outbound s' = outbound s ++ l
    end.

(** [End] is on the stream exactly when it has completed, and then it
    is the last message and the only [End]. *)
Definition ended_ok (d : JobDescription) (s : Run) : Prop :=
  match terminal s with
  | Some Completed => exists l, outbound s = l ++ [MsgEnd d] /\ count isEnd l = 0
  | _ => count isEnd (outbound s) = 0
  end.

(** A live run still listens to [inboundBus]. *)
Definition inbound_ok (s : Run) : Prop :=
  terminal s = None -> inbound_open s = true.

(** The map and the subjects agree: the keys of [channels] are
    distinct, and its entries are exactly the subjects still open. *)
Definition chan_ok (s : Run) : Prop :=
  exists m, channels s = Some m /\ NoDup (m.*1) /\
    forall name h, (name, h) ∈ m <->
      subjects s !! h = Some {| ch_name := name; ch_open := true |}.

(** No subject is open. *)
Definition all_closed (s : Run) : Prop :=
  forall h c, subjects s !! h = Some c -> ch_open c = false.

(** Two states with the same map and the same subjects. *)
Definition same_chan (s s' : Run) : Prop :=
  channels s' = channels s /\ subjects s' = subjects s.

(** The states a run can be in.  Until line 113 has run only the
    inbound callback can act; afterwards the body and what it returned
    act as well. *)
Inductive Reachable (d : JobDescription) : Run -> Prop :=
| reach_initial : Reachable d initial
| reach_early s msg :
    Reachable d s -> channels s = None -> Reachable d (deliver d msg s)
| reach_start s :
    Reachable d s -> channels s = None ->
    Reachable d (set_channels (Some []) (subject_next (MsgStart d) s))
| reach_step s e :
    Reachable d s -> channels s <> None -> Reachable d (step d s e)
| reach_dispatch s r :
    Reachable d s -> channels s <> None -> Reachable d (dispatch d r s).

Definition all_pongs (l : list JobOutboundMessage) : Prop :=
  forallb isPong l = true.

(** The three shapes of the stream: not started yet and live; stopped
    before it started; started. *)
Definition shape_ok (d : JobDescription) (s : Run) : Prop :=
  (channels s = None /\ terminal s = None /\ all_pongs (outbound s))
  \/ (terminal s = Some Completed /\
      exists p, outbound s = p ++ [MsgEnd d] /\ all_pongs p)
  \/ (channels s <> None /\
      exists p q, outbound s = p ++ MsgStart d :: q /\ all_pongs p /\
                  count isStart q = 0).

Definition Inv (d : JobDescription) (s : Run) : Prop :=
  ended_ok d s /\ inbound_ok s /\ shape_ok d s /\
  ((channels s = None /\ subjects s = []) \/ chan_ok s).

(** ** The primary source and quiet events *)

Definition isOutput (m : JobOutboundMessage) : bool :=
  match m with MsgOutput _ _ => true | _ => false end.

(** The messages of the primary source: [Start], [Output], [End]. *)
Definition isPrimary (m : JobOutboundMessage) : bool :=
  isStart m || isOutput m || isEnd m.

Fixpoint primary (l : list JobOutboundMessage) : list JobOutboundMessage :=
  match l with
  | [] => []
  | m :: l' => if isPrimary m then m :: primary l' else primary l'
  end.

(** Events that cannot end a run: all but [Stop] and the settling of
    what the body returned. *)
Definition quiet (e : Event) : bool :=
  match e with
  | Inbound Stop | PromiseResolve _ | PromiseReject _ | StreamError _ | StreamComplete => false
  | _ => true
  end.

Definition isStreamNext (e : Event) : bool :=
  match e with StreamNext _ => true | _ => false end.

Fixpoint stream_values (es : list Event) : list JsonValue :=
  match es with
  | [] => []
  | StreamNext v :: es' => v :: stream_values es'
  | _ :: es' => stream_values es'
  end.

Definition is_active (s : Run) : bool :=
  match subscription s with Some true => true | _ => false end.

(** The [Output] messages a stream's values make while it is subscribed. *)
Definition outputs_of (d : JobDescription) (active : bool) (es : list Event)
  : list JobOutboundMessage :=
  if active then MsgOutput d <$> stream_values es else [].

Definition no_Stop (msgs : list JobInboundMessage) : bool :=
  forallb (fun m => match m with Stop => false | _ => true end) msgs.

(** The answers to the pings among some inbound messages. *)
Fixpoint early_pongs (d : JobDescription) (msgs : list JobInboundMessage)
  : list JobOutboundMessage :=
  match msgs with
  | [] => []
  | Ping id :: msgs' => MsgPong d id :: early_pongs d msgs'
  | _ :: msgs' => early_pongs d msgs'
  end.

Fixpoint early_inputs (msgs : list JobInboundMessage) : list JsonValue :=
  match msgs with
  | [] => []
  | Input v :: msgs' => v :: early_inputs msgs'
  | _ :: msgs' => early_inputs msgs'
  end.

(** ** The claims in the spec's words *)

(** "At the terminal event every channel still in the open set is
    force-completed": once the stream has ended no subject is open. *)
Definition force_completed_at_terminal (s : Run) : Prop :=
  terminal s <> None -> all_closed s.

(** "Exactly one [Start] message is emitted". *)
Definition exactly_one_Start (s : Run) : Prop :=
  count isStart (outbound s) = 1.

(** "Exactly one terminal event occurs": there is one. *)
Definition terminal_event_occurs (s : Run) : Prop :=
  terminal s <> None.

(** ** Sample runs *)

Definition job0 : JobDescription := JsonObject [("name", JsonString "job")].

Definition one : JsonValue := JsonNumber 1.
Definition two : JsonValue := JsonNumber 2.
Definition three : JsonValue := JsonNumber 3.

(** A body that opens channel ["c"] and returns a plain value. *)
Definition body_channel_scalar : Body :=
  {| sync := [CallCreateChannel "c"]; result := ReturnsScalar one |}.

(** A body that does nothing but return a plain value. *)
Definition body_scalar : Body := {| sync := []; result := ReturnsScalar one |}.

Definition nothing_else : Schedule := {| early := []; later := [] |}.

(** A body that opens channel ["c"], pushes a value through it and
    returns a plain value. *)
Definition body_chatty_scalar : Body :=
  {| sync := [CallCreateChannel "c"; ChannelNext 0 two]; result := ReturnsScalar one |}.

Definition body_promise : Body := {| sync := []; result := ReturnsPromise |}.
Definition body_stream : Body := {| sync := []; result := ReturnsObservable |}.

(** A body that opens channel ["c"] and returns a stream. *)
Definition body_channel_stream : Body :=
  {| sync := [CallCreateChannel "c"]; result := ReturnsObservable |}.

(** The sequences the spec gives for the three kinds of result. *)
Definition spec_single_output (d : JobDescription) (v : JsonValue) : list JobOutboundMessage :=
  [MsgStart d; MsgOutput d v; MsgEnd d].

Definition spec_stream_outputs (d : JobDescription) (vs : list JsonValue)
  : list JobOutboundMessage :=
  MsgStart d :: (MsgOutput d <$> vs) ++ [MsgEnd d].

Definition four : JsonValue := JsonNumber 4.
Definition five : JsonValue := JsonNumber 5.

(** "Every currently open channel receives a [ChannelComplete]
    message before the [End] message", for the channel [name]. *)
Definition channel_complete_before_End
    (d : JobDescription) (name : string) (l : list JobOutboundMessage) : Prop :=
  exists l1 l2, l = l1 ++ MsgChannelComplete d name :: l2 /\ count isEnd l1 = 0.

(** "Exactly one teardown signal ([ChannelComplete]) per open
    channel", for the channel [name]. *)
Definition one_teardown_signal
    (d : JobDescription) (name : string) (l : list JobOutboundMessage) : Prop :=
  count (fun m => match m with
                  | MsgChannelComplete _ n => String.eqb n name
                  | _ => false
                  end) l = 1.

(** A [JSON.stringify] for the sample runs: it prints every message
    and every value as ["{}"], and throws on an object that is not a
    tree. *)
Definition sample_stringify_message (m : JobOutboundMessage) : JsAny + string :=
  inr "{}".

Definition sample_stringify_error (err : JsAny) : JsAny + string :=
  match err with
  | AnyObject _ => inl (AnyException (TypeError "Converting circular structure to JSON"))
  | _ => inr "{}"
  end.

Definition context0 : JobHandlerContext := {| ctx_description := job0 |}.

(** The handler of a body that returns a promise. *)
Definition promise_job : JobHandler := createJobHandler (fun _ _ => body_promise) None.

(** ** Notions for the further properties *)

(** The description a message carries. *)
Definition message_description (m : JobOutboundMessage) : JobDescription :=
  match m with
  | MsgStart d | MsgPong d _ | MsgLog d _ | MsgOutput d _
  | MsgChannelMessage d _ _ | MsgChannelError d _ _ | MsgChannelComplete d _
  | MsgEnd d => d
  end.

Definition described (d : JobDescription) (l : list JobOutboundMessage) : Prop :=
  Forall (fun m => message_description m = d) l.

(** The values of the [Input] messages among some events. *)
Fixpoint event_inputs (es : list Event) : list JsonValue :=
  match es with
  | [] => []
  | Inbound (Input v) :: es' => v :: event_inputs es'
  | _ :: es' => event_inputs es'
  end.

(** What the inbound callback keeps to itself: whether it is still
    subscribed, what it threw, and what it pushed into [inputChannel]. *)
Definition same_inbox (s s' : Run) : Prop :=
  inbound_open s' = inbound_open s /\ uncaught s' = uncaught s /\
  inputChannel s' = inputChannel s.

(** The subjects made so far stay where they are, keep their names,
    and stay closed once closed. *)
Definition subjects_grow (s s' : Run) : Prop :=
  forall h c, subjects s !! h = Some c ->
    exists c', subjects s' !! h = Some c' /\ ch_name c' = ch_name c /\
               (ch_open c = false -> ch_open c' = false).

(** No stream is subscribed, and at most [n] outputs have been sent or
    are still to come from a pending promise. *)
Definition outputs_bounded (n : nat) (s : Run) : Prop :=
  subscription s <> Some true /\
  count isOutput (outbound s) + (if promise s then 1 else 0) <= n.

(** The line the logging wrapper writes for the end of a stream. *)
Definition ending_lines (stringify_error : JsAny -> JsAny + string)
    (e : option Termination) : list (string * string) :=
  match e with
  | None => []
  | Some Completed => [("info", "Completed")]
  | Some (Failed err) =>
      match stringify_error err with
      | inr text => [("warn", "Error: " +:+ text)]
      | inl _ => []
      end
  end.

(** From [s] to [s'] the stream got messages that carry the description
    and are not outputs, no promise started to wait and no stream
    became subscribed. *)
Definition adds (d : JobDescription) (s s' : Run) : Prop :=
  (exists l, outbound s' = outbound s ++ l /\ described d l /\ count isOutput l = 0) /\
  (promise s' = true -> promise s = true) /\
  (subscription s' = Some true -> subscription s = Some true).

(** A body that asks for channel ["c"] twice and lets the exception of
    the second call escape. *)
Definition body_throws : Body :=
  {| sync := [CallCreateChannel "c"; CallCreateChannel "c"];
     result := Throws (AnyException (ChannelAlreadyExistException "c")) |}.

(** A loader whose promise resolves with the handler [promise_job]. *)
Definition sample_loader (_ : unit) : Loaded := LoadResolves promise_job.

(** The loader that wraps what [loader] loads in the logging wrapper. *)
Definition logging_loader
    (stringify_message : JobOutboundMessage -> JsAny + string)
    (stringify_error : JsAny -> JsAny + string)
    (logger : LoggerApi) (loader : unit -> Loaded) (u : unit) : Loaded :=
  match loader u with
  | LoadResolves h => LoadResolves (createLoggerJob stringify_message stringify_error h logger)
  | LoadRejects err => LoadRejects err
  | LoadPending => LoadPending
  end.

(** ** The ways a run ends by itself *)

(** The settling of what the body returned: the events that run the
    callbacks of lines 151-155 and 158-163. *)
Definition settles (e : Event) : bool :=
  match e with
  | PromiseResolve _ | PromiseReject _ | StreamError _ | StreamComplete => true
  | _ => false
  end.

(** The state in which the body has returned, or thrown, and lines
    150-172 are about to look at the result. *)
Definition body_returned (d : JobDescription) (body : Body)
    (early_msgs : list JobInboundMessage) : Run :=
  steps d
    (set_channels (Some [])
       (subject_next (MsgStart d)
          (foldl (fun s m => deliver d m s) initial early_msgs)))
    (sync body).

(** ** Proof steps that recur *)

(** Name the fields of a state. *)
Ltac run_fields s :=
  destruct s as [o t io ch sj sub pr ic un]; cbn [outbound terminal inbound_open
    channels subjects subscription promise inputChannel uncaught] in *.

(** Close a case of a quiet event. *)
Ltac quiet_done sub :=
  cbn; rewrite ?app_nil_r;
  destruct sub as [[|]|]; repeat split; try reflexivity; discriminate.

(** * Properties *)

Lemma count_app {A : Type} (p : A -> bool) (l1 l2 : list A) :
  count p (l1 ++ l2) = count p l1 + count p l2.
Proof. induction l1 as [|x l1 IH]; simpl; [reflexivity|]. rewrite IH. lia. Qed.

Lemma clean_nil : clean [].
Proof. split; reflexivity. Qed.

Lemma clean_one m : isStart m = false -> isEnd m = false -> clean [m].
Proof. intros H1 H2. split; simpl; [rewrite H1|rewrite H2]; reflexivity. Qed.


Lemma map_has_true name (m : list (string * nat)) :
  map_has name m = true <-> name ∈ m.*1.
Proof.
  unfold map_has. induction m as [|[k v] m IH]; simpl.
  - rewrite elem_of_nil. split; [discriminate|tauto].
  - rewrite orb_true_iff, IH, String.eqb_eq, elem_of_cons. split; intros [?|?]; auto.
Qed.

Lemma map_has_false name (m : list (string * nat)) :
  map_has name m = false <-> name ∉ m.*1.
Proof.
  rewrite <- map_has_true. destruct (map_has name m); split; congruence.
Qed.

Lemma map_set_fresh name h (m : list (string * nat)) :
  map_has name m = false -> map_set name h m = m ++ [(name, h)].
Proof.
  unfold map_has. induction m as [|[k v] m IH]; simpl; [reflexivity|].
  intros H. apply orb_false_iff in H as [Hk Hm]. rewrite Hk, IH by assumption.
  reflexivity.
Qed.




Lemma elem_of_map_delete name k v (m : list (string * nat)) :
  NoDup (m.*1) ->
  (k, v) ∈ map_delete name m <-> (k, v) ∈ m /\ k <> name.
Proof.
  induction m as [|[k0 v0] m IH]; simpl.
  - intros _. rewrite elem_of_nil. tauto.
  - rewrite ?fmap_cons, NoDup_cons. simpl. intros [Hk0 Hnd].
    destruct (String.eqb k0 name) eqn:Hk.
    + apply String.eqb_eq in Hk. subst k0. rewrite elem_of_cons. split.
      * intros Hin. split; [right; assumption|].
        intros ->. apply Hk0. apply (list_elem_of_fmap_2 fst) in Hin. exact Hin.
      * intros [[Heq|Hin] Hne]; [congruence|assumption].
    + apply String.eqb_neq in Hk. rewrite !elem_of_cons, (IH Hnd). split.
      * intros [Heq|[Hin Hne]]; [|auto]. inversion Heq; subst. auto.
      * intros [[Heq|Hin] Hne]; auto.
Qed.

Lemma NoDup_map_delete name (m : list (string * nat)) :
  NoDup (m.*1) -> NoDup ((map_delete name m).*1).
Proof.
  induction m as [|[k0 v0] m IH]; simpl; [trivial|].
  rewrite ?fmap_cons, NoDup_cons. simpl. intros [Hk0 Hnd].
  destruct (String.eqb k0 name); [assumption|].
  rewrite ?fmap_cons, NoDup_cons. simpl. split; [|auto].
  intros Hin. apply Hk0. apply list_elem_of_fmap in Hin as [[k v] [-> Hin]].
  apply elem_of_map_delete in Hin as [Hin _]; [|assumption].
  apply (list_elem_of_fmap_2 fst) in Hin. exact Hin.
Qed.

Lemma map_key_unique name h h' (m : list (string * nat)) :
  NoDup (m.*1) -> (name, h) ∈ m -> (name, h') ∈ m -> h = h'.
Proof.
  induction m as [|[k0 v0] m IH]; simpl.
  - intros _ H. apply elem_of_nil in H. contradiction.
  - rewrite ?fmap_cons, NoDup_cons, !elem_of_cons. simpl. intros [Hk0 Hnd] [H1|H1] [H2|H2].
    + congruence.
    + inversion H1; subst. exfalso. apply Hk0.
      apply (list_elem_of_fmap_2 fst) in H2. exact H2.
    + inversion H2; subst. exfalso. apply Hk0.
      apply (list_elem_of_fmap_2 fst) in H1. exact H1.
    + auto.
Qed.

Section RunFacts.

Variable d : JobDescription.

(** ** A stopped subscriber stays as it is *)

Lemma subject_next_stopped m s : isStopped s = true -> subject_next m s = s.
Proof. unfold subject_next. intros ->. reflexivity. Qed.

Lemma subject_complete_stopped s : isStopped s = true -> subject_complete s = s.
Proof. unfold subject_complete. intros ->. reflexivity. Qed.

Lemma subject_error_stopped err s : isStopped s = true -> subject_error err s = s.
Proof. unfold subject_error. intros ->. reflexivity. Qed.

Lemma subject_next_live m s :
  terminal s = None -> subject_next m s = set_outbound (outbound s ++ [m]) s.
Proof. unfold subject_next, isStopped. intros ->. reflexivity. Qed.

Lemma same_stream_refl s : same_stream s s.
Proof. split; reflexivity. Qed.

Lemma same_stream_trans s1 s2 s3 :
  same_stream s1 s2 -> same_stream s2 s3 -> same_stream s1 s3.
Proof. intros [? ?] [? ?]. split; congruence. Qed.

Lemma same_stream_stopped s s' :
  same_stream s s' -> isStopped s = true -> isStopped s' = true.
Proof. intros [_ Ht]. unfold isStopped. rewrite Ht. trivial. Qed.

Lemma channel_next_frozen h m s :
  isStopped s = true -> same_stream s (channel_next d h m s).
Proof.
  intros Hs. unfold channel_next.
  destruct (subjects s !! h) as [c|]; [|apply same_stream_refl].
  destruct (ch_open c); [|apply same_stream_refl].
  rewrite subject_next_stopped by assumption. apply same_stream_refl.
Qed.

Lemma channel_error_frozen h err s :
  isStopped s = true -> same_stream s (channel_error d h err s).
Proof.
  intros Hs. unfold channel_error.
  destruct (subjects s !! h) as [c|] eqn:Hc; [|apply same_stream_refl].
  destruct (ch_open c); [|apply same_stream_refl].
  unfold close_subject. rewrite Hc.
  rewrite subject_next_stopped by (run_fields s; exact Hs).
  split; reflexivity.
Qed.

Lemma channel_complete_frozen h s :
  isStopped s = true -> same_stream s (channel_complete d h s).
Proof.
  intros Hs. unfold channel_complete.
  destruct (subjects s !! h) as [c|] eqn:Hc; [|apply same_stream_refl].
  destruct (ch_open c); [|apply same_stream_refl].
  unfold close_subject. rewrite Hc.
  rewrite subject_next_stopped by (run_fields s; exact Hs).
  split; reflexivity.
Qed.

Lemma forEach_complete_frozen todo s :
  isStopped s = true -> same_stream s (forEach_complete d todo s).
Proof.
  revert s. induction todo as [|[name h] todo IH]; intros s Hs; simpl.
  - apply same_stream_refl.
  - destruct (channels s) as [m|]; [|apply IH; assumption].
    destruct (existsb _ m); [|apply IH; assumption].
    pose proof (channel_complete_frozen h s Hs) as Hc.
    eapply same_stream_trans; [exact Hc|].
    apply IH. eapply same_stream_stopped; eassumption.
Qed.

Lemma unsubscribe_same_stream s : same_stream s (unsubscribe s).
Proof. unfold unsubscribe. destruct (subscription s); split; reflexivity. Qed.

Lemma deliver_frozen msg s :
  isStopped s = true -> same_stream s (deliver d msg s).
Proof.
  intros Hs. unfold deliver.
  destruct (inbound_open s); [|apply same_stream_refl].
  destruct msg as [id| |value]; simpl.
  - rewrite subject_next_stopped by assumption. apply same_stream_refl.
  - assert (Hu : isStopped (unsubscribe s) = true)
      by (eapply same_stream_stopped; [apply unsubscribe_same_stream|assumption]).
    rewrite (subject_next_stopped _ _ Hu), (subject_complete_stopped _ Hu).
    destruct (channels (unsubscribe s)) as [m|].
    + eapply same_stream_trans; [apply unsubscribe_same_stream|].
      apply forEach_complete_frozen; assumption.
    + destruct (unsubscribe_same_stream s) as [Ho Ht]. split; simpl; assumption.
  - split; reflexivity.
Qed.

Lemma step_frozen e s :
  isStopped s = true -> same_stream s (step d s e).
Proof.
  intros Hs. destruct e; simpl.
  - apply deliver_frozen; assumption.
  - unfold createChannel. destruct (channels s) as [m|]; [|apply same_stream_refl].
    destruct (map_has name m); [apply same_stream_refl|]. split; reflexivity.
  - apply channel_next_frozen; assumption.
  - apply channel_error_frozen; assumption.
  - apply channel_complete_frozen; assumption.
  - rewrite subject_next_stopped by assumption. apply same_stream_refl.
  - destruct (promise s); [|apply same_stream_refl].
    assert (Hp : isStopped (set_promise false s) = true) by (run_fields s; exact Hs).
    rewrite (subject_next_stopped _ _ Hp), (subject_next_stopped _ _ Hp),
      (subject_complete_stopped _ Hp). split; reflexivity.
  - destruct (promise s); [|apply same_stream_refl].
    assert (Hp : isStopped (set_promise false s) = true) by (run_fields s; exact Hs).
    rewrite (subject_error_stopped _ _ Hp). split; reflexivity.
  - destruct (subscription s) as [[|]|]; try apply same_stream_refl.
    rewrite subject_next_stopped by assumption. apply same_stream_refl.
  - destruct (subscription s) as [[|]|]; try apply same_stream_refl.
    assert (Hp : isStopped (set_subscription (Some false) s) = true)
      by (run_fields s; exact Hs).
    rewrite (subject_error_stopped _ _ Hp). split; reflexivity.
  - destruct (subscription s) as [[|]|]; try apply same_stream_refl.
    assert (Hp : isStopped (set_subscription (Some false) s) = true)
      by (run_fields s; exact Hs).
    rewrite (subject_next_stopped _ _ Hp), (subject_complete_stopped _ Hp).
    split; reflexivity.
Qed.

Lemma steps_frozen es s :
  isStopped s = true -> same_stream s (steps d s es).
Proof.
  revert s. induction es as [|e es IH]; intros s Hs; simpl.
  - apply same_stream_refl.
  - eapply same_stream_trans; [apply step_frozen; assumption|].
    apply IH. eapply same_stream_stopped; [apply step_frozen|]; assumption.
Qed.

(** ** What one event puts on a live stream *)

Lemma emits_none s s' :
  terminal s' = None -> outbound s' = outbound s -> emits d s s'.
Proof.
  intros Ht Ho. exists []. split; [apply clean_nil|].
  rewrite Ht, Ho, app_nil_r. reflexivity.
Qed.

Lemma emits_refl s : terminal s = None -> emits d s s.
Proof. intros Ht. apply emits_none; [assumption|reflexivity]. Qed.

Lemma emits_one m s s' :
  isStart m = false -> isEnd m = false ->
  terminal s' = None -> outbound s' = outbound s ++ [m] -> emits d s s'.
Proof.
  intros H1 H2 Ht Ho. exists [m]. split; [apply clean_one; assumption|].
  rewrite Ht. exact Ho.
Qed.

Lemma deliver_stop_live s m :
  terminal s = None -> inbound_open s = true -> channels s = Some m ->
  same_stream
    (teardown (set_terminal (Some Completed)
       (set_outbound (outbound s ++ [MsgEnd d]) (unsubscribe s))))
    (deliver d Stop s).
Proof.
  intros Ht Hi Hc. unfold deliver. rewrite Hi. simpl.
  run_fields s. subst t ch.
  destruct sub as [b|]; cbn; apply forEach_complete_frozen; reflexivity.
Qed.

Lemma deliver_emits msg s :
  terminal s = None -> emits d s (deliver d msg s).
Proof.
  intros Ht. unfold deliver.
  destruct (inbound_open s) eqn:Hi; [|apply emits_refl; assumption].
  destruct msg as [id| |value].
  - run_fields s. subst t io. apply (emits_one (MsgPong d id)); reflexivity.
  - destruct (channels s) as [m|] eqn:Hc.
    + destruct (deliver_stop_live s m Ht Hi Hc) as [Ho Hte].
      unfold deliver in Ho, Hte. rewrite Hi in Ho, Hte.
      exists []. split; [apply clean_nil|]. rewrite Hte, Ho.
      run_fields s. subst t. destruct sub as [b|]; reflexivity.
    + run_fields s. subst t ch. exists []. split; [apply clean_nil|].
      destruct sub as [b|]; reflexivity.
  - run_fields s. subst t. cbn. apply emits_none; reflexivity.
Qed.

Lemma step_emits e s :
  terminal s = None -> emits d s (step d s e).
Proof.
  intros Ht. destruct e; simpl.
  - apply deliver_emits; assumption.
  - unfold createChannel. destruct (channels s) as [m|]; [|apply emits_refl; assumption].
    destruct (map_has name m); [apply emits_refl; assumption|].
    apply emits_none; [exact Ht|reflexivity].
  - unfold channel_next. destruct (subjects s !! handle) as [c|]; [|apply emits_refl; assumption].
    destruct (ch_open c); [|apply emits_refl; assumption].
    rewrite subject_next_live by assumption.
    apply (emits_one (MsgChannelMessage d (ch_name c) value));
      [reflexivity|reflexivity|exact Ht|reflexivity].
  - unfold channel_error.
    destruct (subjects s !! handle) as [c|] eqn:Hc; [|apply emits_refl; assumption].
    destruct (ch_open c); [|apply emits_refl; assumption].
    unfold close_subject. rewrite Hc. run_fields s. subst t.
    apply (emits_one (MsgChannelError d (ch_name c) error)); reflexivity.
  - unfold channel_complete.
    destruct (subjects s !! handle) as [c|] eqn:Hc; [|apply emits_refl; assumption].
    destruct (ch_open c); [|apply emits_refl; assumption].
    unfold close_subject. rewrite Hc. run_fields s. subst t.
    apply (emits_one (MsgChannelComplete d (ch_name c))); reflexivity.
  - rewrite subject_next_live by assumption.
    apply (emits_one (MsgLog d entry));
      [reflexivity|reflexivity|exact Ht|reflexivity].
  - destruct (promise s); [|apply emits_refl; assumption].
    run_fields s. subst t. exists [MsgOutput d value].
    split; [apply clean_one; reflexivity|].
    destruct sub; cbn; rewrite <- app_assoc; reflexivity.
  - destruct (promise s); [|apply emits_refl; assumption].
    run_fields s. subst t. exists []. split; [apply clean_nil|].
    destruct sub; cbn; rewrite app_nil_r; reflexivity.
  - destruct (subscription s) as [[|]|]; try (apply emits_refl; assumption).
    rewrite subject_next_live by assumption.
    apply (emits_one (MsgOutput d value));
      [reflexivity|reflexivity|exact Ht|reflexivity].
  - destruct (subscription s) as [[|]|] eqn:Hs; try (apply emits_refl; assumption).
    run_fields s. subst t. exists []. split; [apply clean_nil|].
    cbn. rewrite app_nil_r. reflexivity.
  - destruct (subscription s) as [[|]|] eqn:Hs; try (apply emits_refl; assumption).
    run_fields s. subst t. exists []. split; [apply clean_nil|]. reflexivity.
Qed.

(** ** The map and the subjects stay in step *)

Lemma chan_ok_same s s' : same_chan s s' -> chan_ok s -> chan_ok s'.
Proof.
  intros [Hc Hs] (m & Hm & Hnd & Hiff). exists m. rewrite Hc, Hs. auto.
Qed.

Lemma subject_next_same_chan m s : same_chan s (subject_next m s).
Proof. unfold subject_next. destruct (isStopped s); split; reflexivity. Qed.

Lemma chan_ok_all_closed s : chan_ok s -> channels s = Some [] -> all_closed s.
Proof.
  intros (m & Hm & _ & Hiff) Hc h [n [|]] Hh; [|reflexivity].
  rewrite Hm in Hc. injection Hc as ->.
  apply Hiff in Hh. apply elem_of_nil in Hh. contradiction.
Qed.

Lemma close_pure (m : list (string * nat)) (sj : list ChannelSubject) h c :
  NoDup (m.*1) ->
  (forall name h', (name, h') ∈ m <->
     sj !! h' = Some {| ch_name := name; ch_open := true |}) ->
  sj !! h = Some c -> ch_open c = true ->
  NoDup ((map_delete (ch_name c) m).*1) /\
  forall name h', (name, h') ∈ map_delete (ch_name c) m <->
    <[h := {| ch_name := ch_name c; ch_open := false |}]> sj !! h'
      = Some {| ch_name := name; ch_open := true |}.
Proof.
  intros Hnd Hiff Hh Ho. split; [apply NoDup_map_delete; assumption|].
  intros name h'. rewrite elem_of_map_delete by assumption. rewrite Hiff.
  destruct c as [cn co]. simpl in *. subst co.
  destruct (decide (h = h')) as [<-|Hne].
  - rewrite list_lookup_insert_eq by (eapply lookup_lt_Some; eassumption).
    rewrite Hh. split; [|discriminate]. intros [Heq Hn]. congruence.
  - rewrite list_lookup_insert_ne by assumption. split; [tauto|].
    intros Hh'. split; [assumption|]. intros ->. apply Hne.
    apply (map_key_unique cn h h' m Hnd); apply Hiff; assumption.
Qed.

Lemma close_fields h c name msg s :
  subjects s !! h = Some c ->
  let s' := channels_delete name (subject_next msg (close_subject h s)) in
  channels s' = map_delete name <$> channels s /\
  subjects s' = <[h := {| ch_name := ch_name c; ch_open := false |}]> (subjects s).
Proof.
  intros Hc. unfold close_subject. rewrite Hc. unfold subject_next.
  destruct (isStopped _); split; reflexivity.
Qed.

Lemma close_ok h c msg s :
  chan_ok s -> subjects s !! h = Some c -> ch_open c = true ->
  chan_ok (channels_delete (ch_name c) (subject_next msg (close_subject h s))).
Proof.
  intros (m & Hm & Hnd & Hiff) Hc Ho.
  destruct (close_fields h c (ch_name c) msg s Hc) as [Hch Hsj].
  destruct (close_pure m (subjects s) h c Hnd Hiff Hc Ho) as [Hnd' Hiff'].
  exists (map_delete (ch_name c) m). rewrite Hch, Hsj, Hm. auto.
Qed.

Lemma channel_complete_ok h s : chan_ok s -> chan_ok (channel_complete d h s).
Proof.
  intros Hok. unfold channel_complete.
  destruct (subjects s !! h) as [c|] eqn:Hc; [|assumption].
  destruct (ch_open c) eqn:Ho; [|assumption]. apply close_ok; assumption.
Qed.

Lemma channel_error_ok h err s : chan_ok s -> chan_ok (channel_error d h err s).
Proof.
  intros Hok. unfold channel_error.
  destruct (subjects s !! h) as [c|] eqn:Hc; [|assumption].
  destruct (ch_open c) eqn:Ho; [|assumption]. apply close_ok; assumption.
Qed.

Lemma createChannel_ok name h s s' :
  chan_ok s -> createChannel name s = inr (h, s') -> chan_ok s'.
Proof.
  intros (m & Hm & Hnd & Hiff). unfold createChannel. rewrite Hm.
  destruct (map_has name m) eqn:Hhas; [discriminate|]. intros [= <- <-].
  rewrite map_set_fresh by assumption.
  exists (m ++ [(name, length (subjects s))]). split; [reflexivity|]. split.
  - rewrite fmap_app. simpl. apply NoDup_app. split; [assumption|]. split.
    + intros k Hk Hk'. apply list_elem_of_singleton in Hk'. subst k.
      apply map_has_false in Hhas. contradiction.
    + apply NoDup_singleton.
  - intros n h'. cbn [subjects set_channels set_subjects].
    rewrite elem_of_app, list_elem_of_singleton, Hiff. split.
    + intros [Hold|[= -> ->]].
      * rewrite lookup_app_l; [assumption|]. eapply lookup_lt_Some; eassumption.
      * rewrite lookup_app_r, Nat.sub_diag by lia. reflexivity.
    + intros Hl. destruct (decide (h' < length (subjects s))) as [Hlt|Hge].
      * rewrite lookup_app_l in Hl by assumption. auto.
      * rewrite lookup_app_r in Hl by lia.
        destruct (h' - length (subjects s)) as [|k] eqn:Hk; simpl in Hl; [|discriminate].
        injection Hl as <-. right. f_equal. lia.
Qed.

(** [forEach] on the whole map completes every channel and leaves the
    map empty. *)
Lemma forEach_complete_all m s :
  chan_ok s -> channels s = Some m ->
  channels (forEach_complete d m s) = Some [] /\ chan_ok (forEach_complete d m s).
Proof.
  revert s. induction m as [|[name h] m IH]; intros s Hok Hm; simpl.
  - auto.
  - rewrite Hm. simpl. rewrite String.eqb_refl, Nat.eqb_refl. simpl.
    destruct Hok as (m0 & Hm0 & Hnd & Hiff).
    rewrite Hm in Hm0. injection Hm0 as <-.
    assert (Hh : subjects s !! h = Some {| ch_name := name; ch_open := true |})
      by (apply Hiff; left).
    assert (Hok : chan_ok s) by (exists ((name, h) :: m); auto).
    unfold channel_complete. rewrite Hh. simpl.
    apply IH.
    + apply (close_ok h {| ch_name := name; ch_open := true |}); auto.
    + destruct (close_fields h {| ch_name := name; ch_open := true |} name
                  (MsgChannelComplete d name) s Hh) as [Hch _].
      rewrite Hch, Hm. simpl. rewrite String.eqb_refl. reflexivity.
Qed.

Lemma deliver_ok msg s : chan_ok s -> chan_ok (deliver d msg s).
Proof.
  intros Hok. unfold deliver. destruct (inbound_open s); [|assumption].
  destruct msg as [id| |value]; simpl.
  - eapply chan_ok_same; [apply subject_next_same_chan|assumption].
  - set (s3 := subject_complete _).
    assert (Hsame : same_chan s s3).
    { subst s3. unfold subject_complete, subject_next, unsubscribe, teardown.
      run_fields s. destruct sub, t; split; reflexivity. }
    assert (Hok3 : chan_ok s3) by (eapply chan_ok_same; eassumption).
    destruct Hok3 as (m & Hm & Hrest). rewrite Hm.
    apply forEach_complete_all; [exists m; auto|assumption].
  - exact Hok.
Qed.

Lemma step_ok e s : chan_ok s -> chan_ok (step d s e).
Proof.
  intros Hok. destruct e; simpl.
  - apply deliver_ok; assumption.
  - destruct (createChannel name s) as [ex|[h s']] eqn:Hc; [assumption|].
    eapply createChannel_ok; eassumption.
  - unfold channel_next. destruct (subjects s !! handle) as [c|]; [|assumption].
    destruct (ch_open c); [|assumption].
    eapply chan_ok_same; [apply subject_next_same_chan|assumption].
  - apply channel_error_ok; assumption.
  - apply channel_complete_ok; assumption.
  - eapply chan_ok_same; [apply subject_next_same_chan|assumption].
  - destruct (promise s); [|assumption]. eapply chan_ok_same; [|exact Hok].
    unfold subject_complete, subject_next, teardown.
    run_fields s. destruct sub, t; split; reflexivity.
  - destruct (promise s); [|assumption]. eapply chan_ok_same; [|exact Hok].
    unfold subject_error, teardown. run_fields s. destruct sub, t; split; reflexivity.
  - destruct (subscription s) as [[|]|]; try assumption.
    eapply chan_ok_same; [apply subject_next_same_chan|assumption].
  - destruct (subscription s) as [[|]|]; try assumption.
    eapply chan_ok_same; [|exact Hok].
    unfold subject_error, teardown. run_fields s. destruct t; split; reflexivity.
  - destruct (subscription s) as [[|]|]; try assumption.
    eapply chan_ok_same; [|exact Hok].
    unfold subject_complete, subject_next, teardown.
    run_fields s. destruct t; split; reflexivity.
Qed.

Lemma steps_ok es s : chan_ok s -> chan_ok (steps d s es).
Proof.
  revert s. induction es as [|e es IH]; intros s Hok; simpl; [assumption|].
  apply IH, step_ok, Hok.
Qed.

Lemma dispatch_ok r s : chan_ok s -> chan_ok (dispatch d r s).
Proof.
  intros Hok. eapply chan_ok_same; [|exact Hok].
  destruct r; simpl; unfold subject_complete, subject_error, subject_next, teardown;
    run_fields s; destruct sub, t; split; reflexivity.
Qed.

(** ** What [dispatch] puts on the stream *)

Lemma dispatch_frozen r s :
  isStopped s = true -> same_stream s (dispatch d r s).
Proof.
  intros Hs. destruct r; simpl.
  - rewrite (subject_next_stopped (MsgOutput d value) s Hs),
      (subject_next_stopped (MsgEnd d) s Hs), (subject_complete_stopped s Hs).
    apply same_stream_refl.
  - split; reflexivity.
  - split; reflexivity.
  - rewrite subject_error_stopped by assumption. apply same_stream_refl.
Qed.

Lemma dispatch_emits r s :
  terminal s = None -> emits d s (dispatch d r s).
Proof.
  intros Ht. run_fields s. subst t. destruct r; simpl.
  - exists [MsgOutput d value]. split; [apply clean_one; reflexivity|].
    destruct sub; cbn; rewrite <- app_assoc; reflexivity.
  - apply emits_none; reflexivity.
  - apply emits_none; reflexivity.
  - exists []. split; [apply clean_nil|]. destruct sub; cbn; rewrite app_nil_r; reflexivity.
Qed.

(** Whatever happens, the stream only grows, and never by a [Start]. *)
Lemma emits_appends s s' :
  emits d s s' -> exists l, outbound s' = outbound s ++ l /\ count isStart l = 0.
Proof.
  intros (l & [Hs He] & Ho). destruct (terminal s') as [[|err]|].
  - exists (l ++ [MsgEnd d]). split; [assumption|]. rewrite count_app. simpl. lia.
  - exists l. auto.
  - exists l. auto.
Qed.

Lemma same_stream_appends s s' :
  same_stream s s' -> exists l, outbound s' = outbound s ++ l /\ count isStart l = 0.
Proof. intros [Ho _]. exists []. rewrite app_nil_r. auto. Qed.

Lemma live_or_stopped s : terminal s = None \/ isStopped s = true.
Proof. unfold isStopped. destruct (terminal s); auto. Qed.

Lemma step_appends e s :
  exists l, outbound (step d s e) = outbound s ++ l /\ count isStart l = 0.
Proof.
  destruct (live_or_stopped s) as [Ht|Hs].
  - apply emits_appends, step_emits, Ht.
  - apply same_stream_appends, step_frozen, Hs.
Qed.

Lemma dispatch_appends r s :
  exists l, outbound (dispatch d r s) = outbound s ++ l /\ count isStart l = 0.
Proof.
  destruct (live_or_stopped s) as [Ht|Hs].
  - apply emits_appends, dispatch_emits, Ht.
  - apply same_stream_appends, dispatch_frozen, Hs.
Qed.

Lemma steps_appends es s :
  exists l, outbound (steps d s es) = outbound s ++ l /\ count isStart l = 0.
Proof.
  revert s. induction es as [|e es IH]; intros s; simpl.
  - exists []. rewrite app_nil_r. auto.
  - destruct (step_appends e s) as (l1 & Ho1 & Hc1).
    destruct (IH (step d s e)) as (l2 & Ho2 & Hc2).
    exists (l1 ++ l2). rewrite Ho2, Ho1, app_assoc, count_app. split; [reflexivity|lia].
Qed.

(** ** [End] comes with completion *)

Lemma ended_ok_emits s s' :
  terminal s = None -> ended_ok d s -> emits d s s' -> ended_ok d s'.
Proof.
  unfold ended_ok. intros Ht Hok (l & [Hs He] & Ho). rewrite Ht in Hok.
  destruct (terminal s') as [[|err]|].
  - exists (outbound s ++ l). rewrite Ho, app_assoc, count_app. split; [reflexivity|lia].
  - rewrite Ho, count_app. lia.
  - rewrite Ho, count_app. lia.
Qed.

Lemma ended_ok_same s s' : same_stream s s' -> ended_ok d s -> ended_ok d s'.
Proof. unfold ended_ok. intros [Ho Ht]. rewrite Ho, Ht. trivial. Qed.

Lemma step_ended_ok e s : ended_ok d s -> ended_ok d (step d s e).
Proof.
  intros Hok. destruct (live_or_stopped s) as [Ht|Hs].
  - eapply ended_ok_emits; [exact Ht|exact Hok|apply step_emits, Ht].
  - eapply ended_ok_same; [apply step_frozen, Hs|exact Hok].
Qed.

Lemma dispatch_ended_ok r s : ended_ok d s -> ended_ok d (dispatch d r s).
Proof.
  intros Hok. destruct (live_or_stopped s) as [Ht|Hs].
  - eapply ended_ok_emits; [exact Ht|exact Hok|apply dispatch_emits, Ht].
  - eapply ended_ok_same; [apply dispatch_frozen, Hs|exact Hok].
Qed.


(** ** A live run keeps listening *)

Lemma forEach_complete_inbound todo s :
  inbound_open (forEach_complete d todo s) = inbound_open s.
Proof.
  revert s. induction todo as [|[name h] todo IH]; intros s; simpl; [reflexivity|].
  destruct (channels s) as [m|]; [|apply IH].
  destruct (existsb _ m); [|apply IH]. rewrite IH.
  unfold channel_complete. destruct (subjects s !! h) as [c|] eqn:Hc; [|reflexivity].
  destruct (ch_open c); [|reflexivity].
  unfold close_subject, subject_next. rewrite Hc.
  destruct (isStopped _); reflexivity.
Qed.

Lemma step_live_before e s : terminal (step d s e) = None -> terminal s = None.
Proof.
  intros Ht. destruct (live_or_stopped s) as [|Hs]; [assumption|].
  destruct (step_frozen e s Hs) as [_ Hte]. rewrite Ht in Hte.
  unfold isStopped in Hs. rewrite <- Hte in Hs. discriminate.
Qed.

Lemma dispatch_live_before r s : terminal (dispatch d r s) = None -> terminal s = None.
Proof.
  intros Ht. destruct (live_or_stopped s) as [|Hs]; [assumption|].
  destruct (dispatch_frozen r s Hs) as [_ Hte]. rewrite Ht in Hte.
  unfold isStopped in Hs. rewrite <- Hte in Hs. discriminate.
Qed.

Lemma deliver_inbound_ok msg s : inbound_ok s -> inbound_ok (deliver d msg s).
Proof.
  unfold inbound_ok. intros Hok Ht.
  assert (Hl : terminal s = None) by (apply (step_live_before (Inbound msg)); exact Ht).
  specialize (Hok Hl). revert Ht. unfold deliver. rewrite Hok.
  destruct msg as [id| |value]; simpl.
  - intros _. unfold subject_next. destruct (isStopped s); assumption.
  - run_fields s. subst t io. destruct ch as [m|]; [|destruct sub; discriminate].
    destruct sub; cbn; intros Ht; rewrite forEach_complete_inbound; reflexivity.
  - intros _. assumption.
Qed.

Lemma step_inbound_ok e s : inbound_ok s -> inbound_ok (step d s e).
Proof.
  destruct e; try (apply deliver_inbound_ok);
    unfold inbound_ok; intros Hok Ht;
    match type of Ht with
    | terminal (step d s ?e) = None => pose proof (step_live_before e s Ht) as Hl
    end; specialize (Hok Hl); simpl.
  - unfold createChannel. destruct (channels s) as [m|]; [|assumption].
    destruct (map_has name m); assumption.
  - unfold channel_next. destruct (subjects s !! handle) as [c|]; [|assumption].
    destruct (ch_open c); [|assumption]. unfold subject_next. destruct (isStopped s); assumption.
  - unfold channel_error. destruct (subjects s !! handle) as [c|] eqn:Hc; [|assumption].
    destruct (ch_open c); [|assumption]. unfold close_subject, subject_next. rewrite Hc.
    destruct (isStopped _); assumption.
  - unfold channel_complete. destruct (subjects s !! handle) as [c|] eqn:Hc; [|assumption].
    destruct (ch_open c); [|assumption]. unfold close_subject, subject_next. rewrite Hc.
    destruct (isStopped _); assumption.
  - unfold subject_next. destruct (isStopped s); assumption.
  - destruct (promise s); [|assumption]. run_fields s. subst t. destruct sub; assumption.
  - destruct (promise s); [|assumption]. run_fields s. subst t. destruct sub; assumption.
  - destruct (subscription s) as [[|]|]; try assumption.
    unfold subject_next. destruct (isStopped s); assumption.
  - destruct (subscription s) as [[|]|]; try assumption. run_fields s. subst t. assumption.
  - destruct (subscription s) as [[|]|]; try assumption. run_fields s. subst t. assumption.
Qed.

Lemma dispatch_inbound_ok r s : inbound_ok s -> inbound_ok (dispatch d r s).
Proof.
  unfold inbound_ok. intros Hok Ht. specialize (Hok (dispatch_live_before r s Ht)).
  run_fields s. destruct r, t, sub; cbn in *; congruence.
Qed.

(** ** The shape of the stream *)

Lemma all_pongs_snoc p id : all_pongs p -> all_pongs (p ++ [MsgPong d id]).
Proof. unfold all_pongs. intros Hp. rewrite forallb_app, Hp. reflexivity. Qed.

Lemma chan_ok_started s : chan_ok s -> channels s <> None.
Proof. intros (m & Hm & _). rewrite Hm. discriminate. Qed.

Lemma deliver_early_fields msg s :
  channels s = None ->
  channels (deliver d msg s) = None /\ subjects (deliver d msg s) = subjects s.
Proof.
  intros Hc. run_fields s. subst ch.
  destruct io, msg, t, sub; cbn; auto.
Qed.

Lemma shape_ok_stopped_early s s' :
  same_stream s s' ->
  terminal s = Some Completed ->
  (exists p, outbound s = p ++ [MsgEnd d] /\ all_pongs p) ->
  shape_ok d s'.
Proof.
  intros [Ho Ht] Hc Hp. right. left. rewrite Ht, Ho. auto.
Qed.

Lemma deliver_shape_ok msg s :
  channels s = None -> inbound_ok s -> shape_ok d s -> shape_ok d (deliver d msg s).
Proof.
  intros Hc Hin [(_ & Ht & Hp)|[(Ht & Hp)|(Hne & _)]]; [| |contradiction].
  - specialize (Hin Ht). run_fields s. subst ch t io.
    destruct msg as [id| |value]; cbn.
    + left. cbn. auto using all_pongs_snoc.
    + right. left. destruct sub; cbn; eauto.
    + left. cbn. auto.
  - eapply shape_ok_stopped_early; [apply deliver_frozen| |]; try eassumption.
    unfold isStopped. rewrite Ht. reflexivity.
Qed.

Lemma start_shape_ok s :
  channels s = None -> shape_ok d s ->
  shape_ok d (set_channels (Some []) (subject_next (MsgStart d) s)).
Proof.
  intros Hc [(_ & Ht & Hp)|[(Ht & Hp)|(Hne & _)]]; [| |contradiction].
  - right. right. rewrite subject_next_live by assumption. cbn. split; [discriminate|].
    exists (outbound s), []. auto.
  - right. left. rewrite subject_next_stopped by (unfold isStopped; rewrite Ht; reflexivity).
    cbn. auto.
Qed.

Lemma grow_shape_ok s s' :
  channels s <> None -> channels s' <> None ->
  (isStopped s = true -> same_stream s s') ->
  (exists l, outbound s' = outbound s ++ l /\ count isStart l = 0) ->
  shape_ok d s -> shape_ok d s'.
Proof.
  intros Hc Hc' Hfrozen (l & Ho & Hl) [(Hn & _)|[(Ht & Hp)|(_ & p & q & Hpq & Hp & Hq)]].
  - contradiction.
  - eapply shape_ok_stopped_early; [apply Hfrozen| |]; try eassumption.
    unfold isStopped. rewrite Ht. reflexivity.
  - right. right. split; [assumption|]. exists p, (q ++ l).
    rewrite Ho, Hpq, <- app_assoc, count_app. simpl. split; [reflexivity|]. split; [assumption|lia].
Qed.

(** ** Every reachable state satisfies the invariant *)

Lemma initial_Inv : Inv d initial.
Proof.
  split; [reflexivity|]. split; [intros _; reflexivity|]. split.
  - left. repeat split.
  - left. split; reflexivity.
Qed.

Lemma started_chan_ok s :
  subjects s = [] -> chan_ok (set_channels (Some []) (subject_next (MsgStart d) s)).
Proof.
  intros Hs. exists []. split; [reflexivity|]. split; [apply NoDup_nil_2|].
  intros name h. unfold subject_next. destruct (isStopped s); cbn; rewrite Hs;
    rewrite elem_of_nil; split; [tauto|discriminate|tauto|discriminate].
Qed.

Lemma Reachable_Inv s : Reachable d s -> Inv d s.
Proof.
  induction 1 as [|s msg Hr (He & Hi & Hsh & Hch) Hc
                  |s Hr (He & Hi & Hsh & Hch) Hc
                  |s e Hr (He & Hi & Hsh & Hch) Hc
                  |s r Hr (He & Hi & Hsh & Hch) Hc].
  - apply initial_Inv.
  - destruct (deliver_early_fields msg s Hc) as [Hc' Hs'].
    split; [apply (step_ended_ok (Inbound msg)), He|].
    split; [apply deliver_inbound_ok, Hi|].
    split; [apply deliver_shape_ok; assumption|].
    left. destruct Hch as [[_ Hs]|Hok]; [|apply chan_ok_started in Hok; contradiction].
    split; congruence.
  - destruct Hch as [[_ Hs]|Hok]; [|apply chan_ok_started in Hok; contradiction].
    split; [|split; [|split; [apply start_shape_ok; assumption|right; apply started_chan_ok, Hs]]].
    + destruct (live_or_stopped s) as [Ht|Hst].
      * rewrite subject_next_live by assumption.
        unfold ended_ok in *. cbn. rewrite Ht in *. rewrite count_app, He. reflexivity.
      * rewrite subject_next_stopped by assumption. exact He.
    + unfold inbound_ok, subject_next in *. destruct (isStopped s); exact Hi.
  - destruct Hch as [[Hn _]|Hok]; [contradiction|].
    pose proof (step_ok e s Hok) as Hok'.
    split; [apply step_ended_ok, He|]. split; [apply step_inbound_ok, Hi|].
    split; [|right; exact Hok'].
    apply (grow_shape_ok s); auto using chan_ok_started, step_frozen, step_appends.
  - destruct Hch as [[Hn _]|Hok]; [contradiction|].
    pose proof (dispatch_ok r s Hok) as Hok'.
    split; [apply dispatch_ended_ok, He|]. split; [apply dispatch_inbound_ok, Hi|].
    split; [|right; exact Hok'].
    apply (grow_shape_ok s); auto using chan_ok_started, dispatch_frozen, dispatch_appends.
Qed.

(** ** The states of [run] are reachable *)

Lemma Reachable_early msgs s :
  Reachable d s -> channels s = None ->
  Reachable d (foldl (fun s m => deliver d m s) s msgs) /\
  channels (foldl (fun s m => deliver d m s) s msgs) = None.
Proof.
  revert s. induction msgs as [|m msgs IH]; intros s Hr Hc; simpl; [auto|].
  apply IH; [apply reach_early; assumption|apply deliver_early_fields, Hc].
Qed.

Lemma Reachable_started s : Reachable d s -> channels s <> None -> chan_ok s.
Proof.
  intros Hr Hc. destruct (Reachable_Inv s Hr) as (_ & _ & _ & [[Hn _]|Hok]);
    [contradiction|assumption].
Qed.

Lemma Reachable_steps es s :
  Reachable d s -> channels s <> None -> Reachable d (steps d s es).
Proof.
  revert s. induction es as [|e es IH]; intros s Hr Hc; simpl; [assumption|].
  apply IH; [apply reach_step; assumption|].
  apply chan_ok_started, step_ok, Reachable_started; assumption.
Qed.

Lemma Reachable_subscribe body early_msgs :
  Reachable d (subscribe d body early_msgs) /\
  channels (subscribe d body early_msgs) <> None.
Proof.
  unfold subscribe.
  destruct (Reachable_early early_msgs initial (reach_initial d) eq_refl) as [Hr Hc].
  set (s1 := foldl _ initial early_msgs) in *.
  pose proof (reach_start d s1 Hr Hc) as Hr3.
  set (s3 := set_channels (Some []) _) in *.
  assert (Hc3 : channels s3 <> None) by (subst s3; discriminate).
  pose proof (Reachable_steps (sync body) s3 Hr3 Hc3) as Hr4.
  assert (Hok4 : chan_ok (steps d s3 (sync body)))
    by (apply steps_ok, Reachable_started; assumption).
  split; [apply reach_dispatch; [assumption|apply chan_ok_started, Hok4]|].
  apply chan_ok_started, dispatch_ok, Hok4.
Qed.

Lemma Reachable_run body sched : Reachable d (run d body sched).
Proof.
  destruct (Reachable_subscribe body (early sched)) as [Hr Hc].
  apply Reachable_steps; assumption.
Qed.

Lemma run_chan_ok body sched : chan_ok (run d body sched).
Proof.
  destruct (Reachable_subscribe body (early sched)) as [Hr Hc].
  apply steps_ok, Reachable_started; assumption.
Qed.

Lemma all_pongs_counts p :
  all_pongs p -> count isStart p = 0 /\ count isPayload p = 0 /\ count isEnd p = 0.
Proof.
  unfold all_pongs. induction p as [|m p IH]; simpl; [auto|].
  intros H. apply andb_true_iff in H as [Hm Hp]. destruct (IH Hp) as (? & ? & ?).
  destruct m; try discriminate. simpl. auto.
Qed.

(** ** [Stop] on a live run *)

Lemma deliver_stop_eq s m :
  inbound_open s = true -> channels s = Some m ->
  deliver d Stop s
  = forEach_complete d m (subject_complete (subject_next (MsgEnd d) (unsubscribe s))).
Proof.
  intros Hi Hc. unfold deliver. rewrite Hi. simpl.
  replace (channels (subject_complete (subject_next (MsgEnd d) (unsubscribe s))))
    with (Some m); [reflexivity|].
  run_fields s. subst ch. destruct sub, t as [[|]|]; reflexivity.
Qed.

Lemma stop_live s :
  Reachable d s -> channels s <> None -> terminal s = None ->
  terminal (deliver d Stop s) = Some Completed /\
  outbound (deliver d Stop s) = outbound s ++ [MsgEnd d] /\
  channels (deliver d Stop s) = Some [] /\
  all_closed (deliver d Stop s).
Proof.
  intros Hr Hc Ht.
  destruct (Reachable_Inv s Hr) as (_ & Hi & _ & _). specialize (Hi Ht).
  pose proof (Reachable_started s Hr Hc) as Hok.
  destruct Hok as (m & Hm & Hrest).
  destruct (deliver_stop_live s m Ht Hi Hm) as [Ho Hte].
  assert (Hok' : chan_ok (deliver d Stop s)) by (apply deliver_ok; exists m; auto).
  assert (Hch : channels (deliver d Stop s) = Some []).
  { rewrite (deliver_stop_eq s m Hi Hm). apply forEach_complete_all.
    - eapply chan_ok_same; [|exists m; eauto].
      unfold subject_complete, subject_next, unsubscribe, teardown.
      run_fields s. destruct sub, t; split; reflexivity.
    - run_fields s. subst ch. destruct sub, t as [[|]|]; reflexivity. }
  split; [|split; [|split; [exact Hch|apply chan_ok_all_closed; assumption]]].
  - rewrite Hte. run_fields s. destruct sub; reflexivity.
  - rewrite Ho. run_fields s. destruct sub; reflexivity.
Qed.

(** ** Quiet events *)

Lemma primary_app l1 l2 : primary (l1 ++ l2) = primary l1 ++ primary l2.
Proof.
  induction l1 as [|m l1 IH]; simpl; [reflexivity|].
  destruct (isPrimary m); simpl; rewrite IH; reflexivity.
Qed.

Lemma primary_pongs msgs : primary (early_pongs d msgs) = [].
Proof. induction msgs as [|[id| |v] msgs IH]; simpl; auto. Qed.


Lemma outputs_of_cons a e es :
  outputs_of d a (e :: es) = outputs_of d a [e] ++ outputs_of d a es.
Proof. unfold outputs_of. destruct a; [|reflexivity]. destruct e; reflexivity. Qed.

Lemma quiet_step e s :
  terminal s = None -> quiet e = true ->
  exists l,
    outbound (step d s e) = outbound s ++ l /\
    terminal (step d s e) = None /\
    promise (step d s e) = promise s /\
    subscription (step d s e) = subscription s /\
    primary l = outputs_of d (is_active s) [e] /\
    (isStreamNext e = true -> primary l = l).
Proof.
  intros Ht Hq. unfold outputs_of, is_active. run_fields s. subst t.
  destruct e as [[id| |v]|name|h v|h err|h|entry|v|err|v|err|]; try discriminate Hq;
    cbn [step].
  - unfold deliver. cbn. destruct io; [exists [MsgPong d id]|exists []]; quiet_done sub.
  - unfold deliver. cbn. destruct io; exists []; quiet_done sub.
  - unfold createChannel. cbn. destruct ch as [m|]; [destruct (map_has name m)|];
      exists []; quiet_done sub.
  - unfold channel_next. cbn. destruct (sj !! h) as [c|]; [destruct (ch_open c)|];
      [exists [MsgChannelMessage d (ch_name c) v]|exists []|exists []]; quiet_done sub.
  - unfold channel_error, close_subject. cbn.
    destruct (sj !! h) as [c|]; [destruct (ch_open c)|];
      [exists [MsgChannelError d (ch_name c) err]|exists []|exists []]; quiet_done sub.
  - unfold channel_complete, close_subject. cbn.
    destruct (sj !! h) as [c|]; [destruct (ch_open c)|];
      [exists [MsgChannelComplete d (ch_name c)]|exists []|exists []]; quiet_done sub.
  - exists [MsgLog d entry]. quiet_done sub.
  - destruct sub as [[|]|]; [exists [MsgOutput d v]|exists []|exists []];
      cbn; rewrite ?app_nil_r; repeat split.
Qed.

Lemma quiet_steps es s :
  terminal s = None -> forallb quiet es = true ->
  exists l,
    outbound (steps d s es) = outbound s ++ l /\
    terminal (steps d s es) = None /\
    promise (steps d s es) = promise s /\
    subscription (steps d s es) = subscription s /\
    primary l = outputs_of d (is_active s) es /\
    (forallb isStreamNext es = true -> primary l = l).
Proof.
  revert s. induction es as [|e es IH]; intros s Ht Hq; simpl.
  - exists []. rewrite app_nil_r. unfold outputs_of.
    destruct (is_active s); repeat split; assumption.
  - simpl in Hq. apply andb_true_iff in Hq as [Hqe Hqs].
    destruct (quiet_step e s Ht Hqe) as (l1 & Ho1 & Ht1 & Hp1 & Hs1 & Hl1 & Hx1).
    destruct (IH (step d s e) Ht1 Hqs) as (l2 & Ho2 & Ht2 & Hp2 & Hs2 & Hl2 & Hx2).
    assert (Ha : is_active (step d s e) = is_active s)
      by (unfold is_active; rewrite Hs1; reflexivity).
    rewrite Ha in Hl2.
    exists (l1 ++ l2). rewrite Ho2, Ho1, Hp2, Hp1, Hs2, Hs1, primary_app, Hl1, Hl2.
    rewrite (outputs_of_cons _ e es), <- app_assoc. repeat split; try assumption.
    intros Hx. apply andb_true_iff in Hx as [Hxe Hxs].
    rewrite <- Hl1, <- Hl2, Hx1, Hx2 by assumption. reflexivity.
Qed.

(** The inbound messages delivered during [inboundBus.subscribe], when
    there is no [Stop] among them. *)
Lemma early_no_Stop msgs s :
  terminal s = None -> inbound_open s = true -> no_Stop msgs = true ->
  foldl (fun s m => deliver d m s) s msgs
  = set_inputChannel (inputChannel s ++ early_inputs msgs)
      (set_outbound (outbound s ++ early_pongs d msgs) s).
Proof.
  revert s. induction msgs as [|m msgs IH]; intros s Ht Hi Hn; simpl.
  - rewrite !app_nil_r. run_fields s. reflexivity.
  - simpl in Hn. apply andb_true_iff in Hn as [Hm Hn].
    run_fields s. subst t io.
    destruct m as [id| |v]; try discriminate Hm; cbn;
      rewrite IH by (try reflexivity; assumption); cbn;
      rewrite <- ?app_assoc; reflexivity.
Qed.

(** The state in which the body is called, when no [Stop] came early. *)
Lemma started_no_Stop msgs :
  no_Stop msgs = true ->
  set_channels (Some [])
    (subject_next (MsgStart d) (foldl (fun s m => deliver d m s) initial msgs))
  = mkRun (early_pongs d msgs ++ [MsgStart d]) None true (Some []) [] None false
          (early_inputs msgs) [].
Proof.
  intros Hn. rewrite early_no_Stop by (try reflexivity; assumption). reflexivity.
Qed.

End RunFacts.

(** * The claims *)

(** ** C1: the invariant of a run *)

Lemma all_pongs_early d msgs : all_pongs (early_pongs d msgs).
Proof.
  unfold all_pongs. induction msgs as [|[id| |v] msgs IH]; simpl; auto.
Qed.

Lemma run_appends d body sched :
  exists l,
    outbound (run d body sched)
    = outbound (set_channels (Some [])
        (subject_next (MsgStart d)
           (foldl (fun s m => deliver d m s) initial (early sched)))) ++ l
    /\ count isStart l = 0.
Proof.
  unfold run, subscribe.
  set (s3 := set_channels (Some []) _).
  destruct (steps_appends d (sync body) s3) as (l1 & Ho1 & Hc1).
  destruct (dispatch_appends d (result body) (steps d s3 (sync body))) as (l2 & Ho2 & Hc2).
  destruct (steps_appends d (later sched) (dispatch d (result body) (steps d s3 (sync body))))
    as (l3 & Ho3 & Hc3).
  exists (l1 ++ l2 ++ l3). rewrite Ho3, Ho2, Ho1, <- !app_assoc, !count_app.
  split; [reflexivity|lia].
Qed.

(** A [Stop] that [inboundBus] delivers while it is being subscribed
    to ends the stream before [Start] is sent; reading [channels] then
    throws, and the callback is unsubscribed. *)
Lemma early_Stop_no_Start :
  run job0 body_scalar {| early := [Stop]; later := [] |}
  = mkRun [MsgEnd job0] (Some Completed) false (Some []) [] None false []
          [ReferenceError "channels"].
Proof. reflexivity. Qed.

(** A promise that never settles: the run has no terminal event. *)
Lemma pending_promise_never_ends es :
  forallb quiet es = true ->
  ~ terminal_event_occurs (run job0 body_promise {| early := []; later := es |}).
Proof.
  intros Hq Ht. apply Ht.
  destruct (quiet_steps job0 es (subscribe job0 body_promise []) eq_refl Hq)
    as (_ & _ & Hnone & _).
  exact Hnone.
Qed.

(** C1, as stated, fails: a body opens channel ["c"] and returns a
    plain value; the run ends with [End] and the channel is still open,
    its name still in the map. *)
Lemma C1_counterexample :
  let s := run job0 body_channel_scalar nothing_else in
  outbound s = [MsgStart job0; MsgOutput job0 one; MsgEnd job0] /\
  terminal s = Some Completed /\
  channels s = Some [("c", 0)] /\
  ~ force_completed_at_terminal s.
Proof.
  cbv zeta. repeat split.
  intros H. specialize (H ltac:(discriminate) 0 {| ch_name := "c"; ch_open := true |} eq_refl).
  discriminate H.
Qed.

(** Lines 151-171 end the stream and leave the map and the subjects
    alone. *)
Lemma settle_same_chan d e s : settles e = true -> same_chan s (step d s e).
Proof.
  destruct e as [msg|name|h v|h err|h|entry|v|err|v|err|]; try discriminate; intros _;
    cbn [step].
  - destruct (promise s); [|split; reflexivity].
    unfold subject_complete, subject_next, teardown.
    run_fields s. destruct sub, t; split; reflexivity.
  - destruct (promise s); [|split; reflexivity].
    unfold subject_error, teardown. run_fields s. destruct sub, t; split; reflexivity.
  - destruct (subscription s) as [[|]|]; try (split; reflexivity).
    unfold subject_error, teardown. run_fields s. destruct t; split; reflexivity.
  - destruct (subscription s) as [[|]|]; try (split; reflexivity).
    unfold subject_complete, subject_next, teardown.
    run_fields s. destruct t; split; reflexivity.
Qed.

Lemma dispatch_same_chan d r s : same_chan s (dispatch d r s).
Proof.
  destruct r; simpl; unfold subject_complete, subject_error, subject_next, teardown;
    run_fields s; destruct sub, t; split; reflexivity.
Qed.

(** An open subject is closed by a [Stop], or through its own handle,
    and by nothing else. *)
Lemma step_keeps_open d e s h c :
  subjects s !! h = Some c ->
  e <> Inbound Stop -> e <> ChannelDone h -> (forall err, e <> ChannelFail h err) ->
  subjects (step d s e) !! h = Some c.
Proof.
  intros Hc Hstop Hdone Hfail.
  assert (Hsame : forall s', subjects s' = subjects s -> subjects s' !! h = Some c)
    by (intros s' ->; exact Hc).
  assert (Hclose : forall h0 c0 name msg,
            subjects s !! h0 = Some c0 -> h0 <> h ->
            subjects (channels_delete name (subject_next msg (close_subject h0 s))) !! h
            = Some c).
  { intros h0 c0 name msg H0 Hne.
    destruct (close_fields h0 c0 name msg s H0) as [_ ->].
    rewrite list_lookup_insert_ne by assumption. exact Hc. }
  destruct e as [[id| |v]|name|h0 v|h0 err|h0|entry|v|err|v|err|]; cbn [step].
  - apply Hsame. unfold deliver. destruct (inbound_open s); [|reflexivity].
    simpl. unfold subject_next. destruct (isStopped s); reflexivity.
  - contradiction.
  - apply Hsame. unfold deliver. destruct (inbound_open s); reflexivity.
  - unfold createChannel. destruct (channels s) as [m|]; [|exact Hc].
    destruct (map_has name m); [exact Hc|]. cbn.
    rewrite lookup_app_l; [exact Hc|]. eapply lookup_lt_Some; eassumption.
  - apply Hsame. unfold channel_next. destruct (subjects s !! h0) as [c0|]; [|reflexivity].
    destruct (ch_open c0); [|reflexivity].
    unfold subject_next. destruct (isStopped s); reflexivity.
  - unfold channel_error. destruct (subjects s !! h0) as [c0|] eqn:H0; [|exact Hc].
    destruct (ch_open c0); [|exact Hc]. apply (Hclose h0 c0); [exact H0|].
    intros ->. apply (Hfail err). reflexivity.
  - unfold channel_complete. destruct (subjects s !! h0) as [c0|] eqn:H0; [|exact Hc].
    destruct (ch_open c0); [|exact Hc]. apply (Hclose h0 c0); [exact H0|].
    intros ->. apply Hdone. reflexivity.
  - apply Hsame. unfold subject_next. destruct (isStopped s); reflexivity.
  - apply Hsame. apply (settle_same_chan d (PromiseResolve v) s eq_refl).
  - apply Hsame. apply (settle_same_chan d (PromiseReject err) s eq_refl).
  - apply Hsame. destruct (subscription s) as [[|]|]; try reflexivity.
    unfold subject_next. destruct (isStopped s); reflexivity.
  - apply Hsame. apply (settle_same_chan d (StreamError err) s eq_refl).
  - apply Hsame. apply (settle_same_chan d StreamComplete s eq_refl).
Qed.

(** C1 (amended): in every run [Start] is sent at most once and before
    every [Output], [Log] and channel message, and exactly once when no
    [Stop] arrives while [inboundBus] is being subscribed to; [End] is
    on the stream exactly when it has completed, once and last, and a
    failed stream has no [End]; after the terminal event nothing changes
    what the subscriber sees; and a [Stop] delivered to a live run ends
    it with [End] and leaves no channel open.  Channels are completed
    by [Stop] only: a run that ends by itself leaves them as they are,
    for the settling of a promise or of a stream, and the look at what
    the body returned, change neither the map nor any subject; and an
    open channel stays open, and in the map, through every event that
    is not a [Stop] and not the completion or failure of its own
    handle. *)
Theorem C1_run_invariant (d : JobDescription) (body : Body) (sched : Schedule) :
  let s := run d body sched in
  (exists p q, outbound s = p ++ q /\ count isStart p = 0 /\ count isPayload p = 0 /\
     (q = [] \/ exists q', q = MsgStart d :: q' /\ count isStart q' = 0)) /\
  (no_Stop (early sched) = true -> exactly_one_Start s) /\
  ended_ok d s /\
  (forall es, terminal s <> None -> same_stream s (steps d s es)) /\
  (terminal s = None ->
     terminal (step d s (Inbound Stop)) = Some Completed /\
     outbound (step d s (Inbound Stop)) = outbound s ++ [MsgEnd d] /\
     channels (step d s (Inbound Stop)) = Some [] /\
     all_closed (step d s (Inbound Stop))) /\
  (forall e, settles e = true -> same_chan s (step d s e)) /\
  same_chan (body_returned d body (early sched)) (subscribe d body (early sched)) /\
  (forall e h name,
     subjects s !! h = Some {| ch_name := name; ch_open := true |} ->
     e <> Inbound Stop -> e <> ChannelDone h -> (forall err, e <> ChannelFail h err) ->
     subjects (step d s e) !! h = Some {| ch_name := name; ch_open := true |} /\
     exists m, channels (step d s e) = Some m /\ (name, h) ∈ m).
Proof.
  intros s. pose proof (Reachable_run d body sched) as Hr. fold s in Hr.
  destruct (Reachable_Inv d s Hr) as (He & Hi & Hsh & Hch).
  split; [|split; [|split; [exact He|split; [|split; [|split; [|split]]]]]].
  - destruct Hsh as [(_ & _ & Hp)|[(_ & p & Ho & Hp)|(_ & p & q & Ho & Hp & Hq)]].
    + destruct (all_pongs_counts _ Hp) as (? & ? & ?).
      exists (outbound s), []. rewrite app_nil_r. auto.
    + destruct (all_pongs_counts _ Hp) as (H1 & H2 & H3).
      exists (outbound s), []. rewrite app_nil_r, Ho, !count_app, H1, H2. auto.
    + destruct (all_pongs_counts _ Hp) as (H1 & H2 & H3).
      exists p, (MsgStart d :: q). repeat split; eauto.
  - intros Hn. unfold exactly_one_Start.
    destruct (run_appends d body sched) as (l & Ho & Hl). fold s in Ho.
    rewrite started_no_Stop in Ho by assumption. cbn in Ho.
    rewrite Ho, !count_app, Hl.
    destruct (all_pongs_counts _ (all_pongs_early d (early sched))) as (H1 & _).
    rewrite H1. reflexivity.
  - intros es Ht. apply steps_frozen. unfold isStopped.
    destruct (terminal s); [reflexivity|contradiction].
  - intros Ht. apply stop_live; [assumption| |assumption].
    apply (chan_ok_started s). apply run_chan_ok.
  - intros e Hs. apply settle_same_chan, Hs.
  - apply (dispatch_same_chan d (result body) (body_returned d body (early sched))).
  - intros e h name Hh Hstop Hdone Hfail.
    pose proof (step_keeps_open d e s h _ Hh Hstop Hdone Hfail) as Hh'.
    split; [exact Hh'|].
    destruct (step_ok d e s (run_chan_ok d body sched)) as (m & Hm & _ & Hiff).
    exists m. split; [exact Hm|]. apply Hiff. exact Hh'.
Qed.

Lemma C1_run_invariant_witness :
  exactly_one_Start (run job0 body_channel_scalar nothing_else) /\
  same_stream (run job0 body_channel_scalar nothing_else)
    (steps job0 (run job0 body_channel_scalar nothing_else) [Inbound (Ping 7)]) /\
  all_closed
    (step job0
       (run job0 {| sync := [CallCreateChannel "c"]; result := ReturnsPromise |} nothing_else)
       (Inbound Stop)) /\
  same_chan
    (run job0 {| sync := [CallCreateChannel "c"]; result := ReturnsPromise |} nothing_else)
    (step job0
       (run job0 {| sync := [CallCreateChannel "c"]; result := ReturnsPromise |} nothing_else)
       (PromiseResolve one)) /\
  subjects
    (step job0
       (run job0 {| sync := [CallCreateChannel "c"]; result := ReturnsPromise |} nothing_else)
       (PromiseReject (AnyObject 0))) !! 0
  = Some {| ch_name := "c"; ch_open := true |}.
Proof.
  pose proof (C1_run_invariant job0
                {| sync := [CallCreateChannel "c"]; result := ReturnsPromise |} nothing_else)
    as Hpromise.
  cbv zeta in Hpromise.
  destruct Hpromise as (_ & _ & _ & _ & Hstop & Hsettle & _ & Hopen).
  split; [|split; [|split; [|split]]].
  - apply (C1_run_invariant job0 body_channel_scalar nothing_else). reflexivity.
  - apply (C1_run_invariant job0 body_channel_scalar nothing_else). discriminate.
  - apply Hstop. reflexivity.
  - apply Hsettle. reflexivity.
  - apply (Hopen (PromiseReject (AnyObject 0)) 0 "c"); [reflexivity| | |];
      intros; discriminate.
Defined.

(** ** C2, C3, C4: the three kinds of result *)

Lemma primary_nil_no_End l : primary l = [] -> count isEnd l = 0.
Proof.
  induction l as [|m l IH]; simpl; [reflexivity|].
  destruct m; simpl; try discriminate; exact IH.
Qed.

Lemma stream_values_fmap vs : stream_values (StreamNext <$> vs) = vs.
Proof. induction vs as [|v vs IH]; simpl; [reflexivity|]. f_equal. exact IH. Qed.

Lemma isStreamNext_fmap vs : forallb isStreamNext (StreamNext <$> vs) = true.
Proof. induction vs as [|v vs IH]; simpl; [reflexivity|]. exact IH. Qed.

Lemma quiet_fmap vs : forallb quiet (StreamNext <$> vs) = true.
Proof. induction vs as [|v vs IH]; simpl; [reflexivity|]. exact IH. Qed.

Lemma steps_app d s es1 es2 : steps d s (es1 ++ es2) = steps d (steps d s es1) es2.
Proof. unfold steps. apply foldl_app. Qed.

(** The state in which the body returns, when no [Stop] has come. *)
Lemma body_returns d body msgs :
  no_Stop msgs = true -> forallb quiet (sync body) = true ->
  let s4 := steps d (set_channels (Some [])
                (subject_next (MsgStart d)
                   (foldl (fun s m => deliver d m s) initial msgs))) (sync body) in
  exists mid,
    outbound s4 = early_pongs d msgs ++ MsgStart d :: mid /\
    terminal s4 = None /\ promise s4 = false /\ subscription s4 = None /\
    primary mid = [] /\ (sync body = [] -> mid = []).
Proof.
  intros Hn Hq. rewrite started_no_Stop by assumption. cbv zeta.
  set (s3 := mkRun _ _ _ _ _ _ _ _ _).
  destruct (quiet_steps d (sync body) s3 eq_refl Hq) as (mid & Ho & Ht & Hp & Hs & Hl & Hx).
  exists mid. rewrite Ho, Ht, Hp, Hs. subst s3. cbn. rewrite <- app_assoc.
  repeat split; try assumption.
  intros Hnil. rewrite Hnil in Hx. rewrite <- Hx by reflexivity. exact Hl.
Qed.

Lemma finish_live d v s :
  terminal s = None ->
  outbound (subject_complete (subject_next (MsgEnd d) (subject_next (MsgOutput d v) s)))
  = outbound s ++ [MsgOutput d v; MsgEnd d] /\
  terminal (subject_complete (subject_next (MsgEnd d) (subject_next (MsgOutput d v) s)))
  = Some Completed.
Proof.
  intros Ht. run_fields s. subst t. destruct sub; cbn; rewrite <- app_assoc; auto.
Qed.

Lemma frozen_after d es s t :
  terminal s = Some t ->
  outbound (steps d s es) = outbound s /\ terminal (steps d s es) = Some t.
Proof.
  intros Ht. destruct (steps_frozen d es s) as [Ho Hte].
  - unfold isStopped. rewrite Ht. reflexivity.
  - rewrite Ho, Hte. auto.
Qed.

(** C2, as stated, fails: a body that pushes a value through a channel
    before it returns has that message between [Start] and [Output];
    and a [Ping] that comes early is answered before [Start]. *)
Lemma C2_counterexample :
  outbound (run job0 body_chatty_scalar nothing_else)
    = [MsgStart job0; MsgChannelMessage job0 "c" two; MsgOutput job0 one; MsgEnd job0] /\
  outbound (run job0 body_chatty_scalar nothing_else) <> spec_single_output job0 one /\
  outbound (run job0 body_scalar {| early := [Ping 7]; later := [] |})
    <> spec_single_output job0 one.
Proof. repeat split; discriminate. Qed.

(** C2 (amended): for every body that returns a plain value [v], when
    no [Stop] is delivered before it returns, the stream completes and
    carries the answers to early pings, [Start], what the body's calls
    on its context emitted while it ran, [Output v], [End]; its primary
    messages are exactly [Start, Output v, End]; and the whole sequence
    is exactly that when nothing arrives early and the body makes no
    call on its context.  Nothing that happens later changes it. *)
Theorem C2_scalar (d : JobDescription) (body : Body) (sched : Schedule) (v : JsonValue) :
  result body = ReturnsScalar v ->
  no_Stop (early sched) = true ->
  forallb quiet (sync body) = true ->
  let s := run d body sched in
  terminal s = Some Completed /\
  (exists mid,
     outbound s = early_pongs d (early sched) ++ MsgStart d :: mid ++ [MsgOutput d v; MsgEnd d]
     /\ primary mid = []) /\
  primary (outbound s) = spec_single_output d v /\
  (early sched = [] -> sync body = [] -> outbound s = spec_single_output d v).
Proof.
  intros Hres Hn Hq s.
  destruct (body_returns d body (early sched) Hn Hq) as (mid & Ho & Ht & Hp & Hs & Hl & Hx).
  set (s4 := steps d _ (sync body)) in *.
  assert (Hrun : s = steps d (dispatch d (ReturnsScalar v) s4) (later sched))
    by (subst s s4; unfold run, subscribe; rewrite Hres; reflexivity).
  destruct (finish_live d v s4 Ht) as [Ho5 Ht5].
  destruct (frozen_after d (later sched) (dispatch d (ReturnsScalar v) s4) Completed Ht5)
    as [Ho6 Ht6].
  rewrite <- Hrun in Ho6, Ht6. simpl in Ho6. rewrite Ho5, Ho in Ho6.
  assert (Hout : outbound s
                 = early_pongs d (early sched) ++ MsgStart d :: mid ++ [MsgOutput d v; MsgEnd d])
    by (rewrite Ho6, <- app_assoc; reflexivity).
  split; [exact Ht6|]. split; [exists mid; auto|]. split.
  - rewrite Hout, primary_app, primary_pongs. simpl. rewrite primary_app, Hl. reflexivity.
  - intros He Hsy. rewrite Hout, He, (Hx Hsy). reflexivity.
Qed.

Lemma C2_scalar_witness :
  outbound (run job0 body_scalar nothing_else) = spec_single_output job0 one.
Proof.
  apply (C2_scalar job0 body_scalar nothing_else one); reflexivity.
Defined.

Lemma resolve_live d v s :
  terminal s = None -> promise s = true ->
  outbound (step d s (PromiseResolve v)) = outbound s ++ [MsgOutput d v; MsgEnd d] /\
  terminal (step d s (PromiseResolve v)) = Some Completed.
Proof.
  intros Ht Hp. run_fields s. subst t pr. destruct sub; cbn; rewrite <- app_assoc; auto.
Qed.

Lemma reject_live d err s :
  terminal s = None -> promise s = true ->
  outbound (step d s (PromiseReject err)) = outbound s /\
  terminal (step d s (PromiseReject err)) = Some (Failed err).
Proof.
  intros Ht Hp. run_fields s. subst t pr. destruct sub; cbn; auto.
Qed.

(** The state in which a pending promise is about to settle. *)
Lemma promise_pending d body msgs before :
  result body = ReturnsPromise ->
  no_Stop msgs = true -> forallb quiet (sync body) = true -> forallb quiet before = true ->
  exists mid,
    outbound (steps d (subscribe d body msgs) before)
      = early_pongs d msgs ++ MsgStart d :: mid /\
    terminal (steps d (subscribe d body msgs) before) = None /\
    promise (steps d (subscribe d body msgs) before) = true /\
    primary mid = [] /\ (sync body = [] -> before = [] -> mid = []).
Proof.
  intros Hres Hn Hq Hqb.
  destruct (body_returns d body msgs Hn Hq) as (mid & Ho & Ht & Hp & Hs & Hl & Hx).
  unfold subscribe. rewrite Hres. set (s4 := steps d _ (sync body)) in *. cbn [dispatch].
  assert (Ht5 : terminal (set_promise true s4) = None) by exact Ht.
  destruct (quiet_steps d before (set_promise true s4) Ht5 Hqb)
    as (l & Ho' & Ht' & Hp' & Hs' & Hl' & Hx').
  exists (mid ++ l). rewrite Ho', Ht', Hp'. cbn [outbound promise set_promise].
  rewrite Ho, <- app_assoc, primary_app, Hl, Hl'.
  unfold outputs_of, is_active. cbn [subscription set_promise]. rewrite Hs.
  repeat split.
  intros Hsy Hb. rewrite (Hx Hsy). rewrite Hb in Hx', Hl'. rewrite <- Hx' by reflexivity.
  rewrite Hl'. unfold outputs_of, is_active. cbn [subscription set_promise]. rewrite Hs.
  reflexivity.
Qed.

(** C3, as stated, fails: a promise cannot be cancelled, so it still
    resolves to its value after a [Stop], but by then the stream has
    ended with [End] and the value is dropped; and what the body pushes
    through a channel while the promise is pending sits between [Start]
    and [Output]. *)
Lemma C3_counterexample :
  outbound (run job0 body_promise
              {| early := []; later := [Inbound Stop; PromiseResolve one] |})
    = [MsgStart job0; MsgEnd job0] /\
  outbound (run job0 body_promise
              {| early := []; later := [Inbound Stop; PromiseResolve one] |})
    <> spec_single_output job0 one /\
  outbound (run job0 {| sync := [CallCreateChannel "c"]; result := ReturnsPromise |}
              {| early := []; later := [ChannelNext 0 two; PromiseResolve one] |})
    <> spec_single_output job0 one.
Proof. repeat split; discriminate. Qed.

(** C3 (amended): for every body that returns a promise, when no [Stop]
    is delivered before the promise settles: if it resolves to [v] the
    stream completes and carries the answers to early pings, [Start],
    the pong, log and channel messages emitted meanwhile, [Output v],
    [End], its primary messages being exactly [Start, Output v, End],
    and the whole sequence being exactly that when nothing else happens
    before; if it rejects with [e] the stream fails with [e] after
    [Start] and those messages, with no [Output] and no [End], whatever
    happens afterwards. *)
Theorem C3_deferred (d : JobDescription) (body : Body)
    (msgs : list JobInboundMessage) (before after : list Event) :
  result body = ReturnsPromise ->
  no_Stop msgs = true ->
  forallb quiet (sync body) = true ->
  forallb quiet before = true ->
  (forall v,
     let s := run d body {| early := msgs; later := before ++ PromiseResolve v :: after |} in
     terminal s = Some Completed /\
     (exists mid,
        outbound s = early_pongs d msgs ++ MsgStart d :: mid ++ [MsgOutput d v; MsgEnd d]
        /\ primary mid = []) /\
     primary (outbound s) = spec_single_output d v /\
     (msgs = [] -> sync body = [] -> before = [] -> outbound s = spec_single_output d v)) /\
  (forall err,
     let s := run d body {| early := msgs; later := before ++ PromiseReject err :: after |} in
     terminal s = Some (Failed err) /\
     (exists mid, outbound s = early_pongs d msgs ++ MsgStart d :: mid /\ primary mid = []) /\
     primary (outbound s) = [MsgStart d] /\
     count isEnd (outbound s) = 0 /\
     (msgs = [] -> sync body = [] -> before = [] -> outbound s = [MsgStart d])).
Proof.
  intros Hres Hn Hq Hqb.
  destruct (promise_pending d body msgs before Hres Hn Hq Hqb)
    as (mid & Ho & Ht & Hp & Hl & Hx).
  set (s5 := steps d (subscribe d body msgs) before) in *.
  split.
  - intros v s.
    assert (Hrun : s = steps d (step d s5 (PromiseResolve v)) after)
      by (subst s s5; unfold run; cbn [early later]; rewrite steps_app; reflexivity).
    destruct (resolve_live d v s5 Ht Hp) as [Ho6 Ht6].
    destruct (frozen_after d after _ Completed Ht6) as [Ho7 Ht7].
    rewrite <- Hrun in Ho7, Ht7. rewrite Ho6, Ho in Ho7.
    assert (Hout : outbound s
                   = early_pongs d msgs ++ MsgStart d :: mid ++ [MsgOutput d v; MsgEnd d])
      by (rewrite Ho7, <- app_assoc; reflexivity).
    split; [exact Ht7|]. split; [exists mid; auto|]. split.
    + rewrite Hout, primary_app, primary_pongs. simpl. rewrite primary_app, Hl. reflexivity.
    + intros He Hsy Hb. rewrite Hout, He, (Hx Hsy Hb). reflexivity.
  - intros err s.
    assert (Hrun : s = steps d (step d s5 (PromiseReject err)) after)
      by (subst s s5; unfold run; cbn [early later]; rewrite steps_app; reflexivity).
    destruct (reject_live d err s5 Ht Hp) as [Ho6 Ht6].
    destruct (frozen_after d after _ (Failed err) Ht6) as [Ho7 Ht7].
    rewrite <- Hrun in Ho7, Ht7. rewrite Ho6, Ho in Ho7.
    assert (Hprim : primary (outbound s) = [MsgStart d])
      by (rewrite Ho7, primary_app, primary_pongs; simpl; rewrite Hl; reflexivity).
    split; [exact Ht7|]. split; [exists mid; auto|]. split; [exact Hprim|]. split.
    + rewrite Ho7, count_app. simpl.
      destruct (all_pongs_counts _ (all_pongs_early d msgs)) as (_ & _ & ->).
      rewrite (primary_nil_no_End mid Hl). reflexivity.
    + intros He Hsy Hb. rewrite Ho7, He, (Hx Hsy Hb). reflexivity.
Qed.

Lemma C3_deferred_witness :
  outbound (run job0 body_promise {| early := []; later := [PromiseResolve one] |})
    = spec_single_output job0 one /\
  terminal (run job0 body_promise
              {| early := []; later := [PromiseReject (AnyObject 0); Inbound Stop] |})
    = Some (Failed (AnyObject 0)) /\
  count isEnd (outbound (run job0 body_promise
              {| early := []; later := [PromiseReject (AnyObject 0); Inbound Stop] |})) = 0.
Proof.
  pose proof (C3_deferred job0 body_promise [] [] [] eq_refl eq_refl eq_refl eq_refl)
    as [Hresolve _].
  pose proof (C3_deferred job0 body_promise [] [] [Inbound Stop]
                eq_refl eq_refl eq_refl eq_refl) as [_ Hreject].
  split; [|split].
  - apply (Hresolve one); reflexivity.
  - apply (Hreject (AnyObject 0)).
  - apply (Hreject (AnyObject 0)).
Defined.

Lemma complete_live d s :
  terminal s = None -> subscription s = Some true ->
  outbound (step d s StreamComplete) = outbound s ++ [MsgEnd d] /\
  terminal (step d s StreamComplete) = Some Completed.
Proof. intros Ht Hs. run_fields s. subst t sub. cbn. auto. Qed.

Lemma error_live d err s :
  terminal s = None -> subscription s = Some true ->
  outbound (step d s (StreamError err)) = outbound s /\
  terminal (step d s (StreamError err)) = Some (Failed err).
Proof. intros Ht Hs. run_fields s. subst t sub. cbn. auto. Qed.

(** The state of a run whose body returned a stream that has not
    ended yet. *)
Lemma stream_in_flight d body msgs before :
  result body = ReturnsObservable ->
  no_Stop msgs = true -> forallb quiet (sync body) = true -> forallb quiet before = true ->
  exists l,
    outbound (steps d (subscribe d body msgs) before)
      = early_pongs d msgs ++ MsgStart d :: l /\
    terminal (steps d (subscribe d body msgs) before) = None /\
    subscription (steps d (subscribe d body msgs) before) = Some true /\
    primary l = MsgOutput d <$> stream_values before /\
    (sync body = [] -> forallb isStreamNext before = true ->
       l = MsgOutput d <$> stream_values before).
Proof.
  intros Hres Hn Hq Hqb.
  destruct (body_returns d body msgs Hn Hq) as (mid & Ho & Ht & Hp & Hs & Hl & Hx).
  unfold subscribe. rewrite Hres. set (s4 := steps d _ (sync body)) in *. cbn [dispatch].
  assert (Hlive : isStopped s4 = false) by (unfold isStopped; rewrite Ht; reflexivity).
  rewrite Hlive. cbn [negb].
  assert (Ht5 : terminal (set_subscription (Some true) s4) = None) by exact Ht.
  destruct (quiet_steps d before (set_subscription (Some true) s4) Ht5 Hqb)
    as (l & Ho' & Ht' & Hp' & Hs' & Hl' & Hx').
  exists (mid ++ l). rewrite Ho', Ht', Hs'. cbn [outbound subscription set_subscription].
  rewrite Ho, <- app_assoc, primary_app, Hl, Hl'.
  repeat split.
  intros Hsy Hb. rewrite (Hx Hsy), <- (Hx' Hb). exact Hl'.
Qed.

(** C4, as stated, fails: what the body pushes through a channel
    between two values of the stream sits between their [Output]
    messages; and after a [Stop] the later values of the stream are
    not sent. *)
Lemma C4_counterexample :
  outbound (run job0 body_channel_stream
     {| early := [];
        later := [StreamNext one; ChannelNext 0 three; StreamNext two; StreamComplete] |})
    = [MsgStart job0; MsgOutput job0 one; MsgChannelMessage job0 "c" three;
       MsgOutput job0 two; MsgEnd job0] /\
  outbound (run job0 body_channel_stream
     {| early := [];
        later := [StreamNext one; ChannelNext 0 three; StreamNext two; StreamComplete] |})
    <> spec_stream_outputs job0 [one; two] /\
  outbound (run job0 body_stream
     {| early := [];
        later := [StreamNext one; Inbound Stop; StreamNext two; StreamComplete] |})
    <> spec_stream_outputs job0 [one; two].
Proof. repeat split; discriminate. Qed.

(** C4 (amended): for every body that returns a stream, when no [Stop]
    is delivered before the stream ends: if it completes after the
    values [vs], the outbound stream completes and its primary messages
    are exactly [Start], one [Output] per value in the order of the
    values, [End], with [End] last; the whole sequence is exactly that
    when nothing else happens before; if the stream fails with [e], the
    outbound stream fails with [e] and has no [End], whatever happens
    afterwards. *)
Theorem C4_stream (d : JobDescription) (body : Body)
    (msgs : list JobInboundMessage) (before after : list Event) :
  result body = ReturnsObservable ->
  no_Stop msgs = true ->
  forallb quiet (sync body) = true ->
  forallb quiet before = true ->
  (let s := run d body {| early := msgs; later := before ++ StreamComplete :: after |} in
   terminal s = Some Completed /\
   (exists l, outbound s = early_pongs d msgs ++ MsgStart d :: l ++ [MsgEnd d] /\
              primary l = MsgOutput d <$> stream_values before) /\
   primary (outbound s) = spec_stream_outputs d (stream_values before) /\
   (forall vs, msgs = [] -> sync body = [] -> before = StreamNext <$> vs ->
      outbound s = spec_stream_outputs d vs)) /\
  (forall err,
     let s := run d body {| early := msgs; later := before ++ StreamError err :: after |} in
     terminal s = Some (Failed err) /\
     primary (outbound s) = MsgStart d :: (MsgOutput d <$> stream_values before) /\
     count isEnd (outbound s) = 0).
Proof.
  intros Hres Hn Hq Hqb.
  destruct (stream_in_flight d body msgs before Hres Hn Hq Hqb)
    as (l & Ho & Ht & Hs & Hl & Hx).
  set (s5 := steps d (subscribe d body msgs) before) in *.
  split.
  - intros s.
    assert (Hrun : s = steps d (step d s5 StreamComplete) after)
      by (subst s s5; unfold run; cbn [early later]; rewrite steps_app; reflexivity).
    destruct (complete_live d s5 Ht Hs) as [Ho6 Ht6].
    destruct (frozen_after d after _ Completed Ht6) as [Ho7 Ht7].
    rewrite <- Hrun in Ho7, Ht7. rewrite Ho6, Ho in Ho7.
    assert (Hout : outbound s = early_pongs d msgs ++ MsgStart d :: l ++ [MsgEnd d])
      by (rewrite Ho7, <- app_assoc; reflexivity).
    split; [exact Ht7|]. split; [exists l; auto|]. split.
    + rewrite Hout, primary_app, primary_pongs. simpl. rewrite primary_app, Hl. reflexivity.
    + intros vs He Hsy Hb. rewrite Hout, He, (Hx Hsy).
      * rewrite Hb, stream_values_fmap. reflexivity.
      * rewrite Hb. apply isStreamNext_fmap.
  - intros err s.
    assert (Hrun : s = steps d (step d s5 (StreamError err)) after)
      by (subst s s5; unfold run; cbn [early later]; rewrite steps_app; reflexivity).
    destruct (error_live d err s5 Ht Hs) as [Ho6 Ht6].
    destruct (frozen_after d after _ (Failed err) Ht6) as [Ho7 Ht7].
    rewrite <- Hrun in Ho7, Ht7. rewrite Ho6, Ho in Ho7.
    split; [exact Ht7|]. split.
    + rewrite Ho7, primary_app, primary_pongs. simpl. rewrite Hl. reflexivity.
    + destruct (Reachable_Inv d s (Reachable_run d body _)) as (He & _).
      unfold ended_ok in He. fold s in He. rewrite Ht7 in He. exact He.
Qed.

Lemma C4_stream_witness :
  outbound (run job0 body_stream
     {| early := []; later := [StreamNext one; StreamNext two; StreamComplete] |})
    = spec_stream_outputs job0 [one; two] /\
  terminal (run job0 body_stream
     {| early := []; later := [StreamNext one; StreamError (AnyObject 0); StreamNext two] |})
    = Some (Failed (AnyObject 0)).
Proof.
  pose proof (C4_stream job0 body_stream [] [StreamNext one; StreamNext two] []
                eq_refl eq_refl eq_refl eq_refl) as [Hcomplete _].
  pose proof (C4_stream job0 body_stream [] [StreamNext one] [StreamNext two]
                eq_refl eq_refl eq_refl eq_refl) as [_ Herror].
  cbv zeta in Hcomplete. destruct Hcomplete as (_ & _ & _ & Hplain).
  split.
  - apply (Hplain [one; two]); reflexivity.
  - apply (Herror (AnyObject 0)).
Defined.

(** ** C5, C6: [Stop] *)

Lemma forEach_complete_subscription d todo s :
  subscription (forEach_complete d todo s) = subscription s.
Proof.
  revert s. induction todo as [|[name h] todo IH]; intros s; simpl; [reflexivity|].
  destruct (channels s) as [m|]; [|apply IH].
  destruct (existsb _ m); [|apply IH]. rewrite IH.
  unfold channel_complete. destruct (subjects s !! h) as [c|] eqn:Hc; [|reflexivity].
  destruct (ch_open c); [|reflexivity].
  unfold close_subject, subject_next. rewrite Hc.
  destruct (isStopped _); reflexivity.
Qed.

(** A second [Stop] right after a first one finds nothing to do. *)
Lemma stop_again d s :
  Reachable d s -> channels s <> None -> terminal s = None ->
  deliver d Stop (deliver d Stop s) = deliver d Stop s.
Proof.
  intros Hr Hc Ht.
  destruct (stop_live d s Hr Hc Ht) as (Ht1 & _ & Hc1 & _).
  destruct (Reachable_Inv d s Hr) as (_ & Hi & _ & _). specialize (Hi Ht).
  destruct (Reachable_started d s Hr Hc) as (m & Hm & _).
  assert (Hi1 : inbound_open (deliver d Stop s) = true).
  { rewrite (deliver_stop_eq d s m Hi Hm), forEach_complete_inbound.
    run_fields s. destruct sub, t; exact Hi. }
  assert (Hs1 : subscription (deliver d Stop s) <> Some true).
  { rewrite (deliver_stop_eq d s m Hi Hm), forEach_complete_subscription.
    run_fields s. destruct sub, t; discriminate. }
  remember (deliver d Stop s) as s1 eqn:E. clear E.
  run_fields s1. subst t io ch.
  destruct sub as [[|]|]; [contradiction| |]; reflexivity.
Qed.

(** C5, as stated, fails: the body has channel ["c"] open when [Stop]
    arrives after two of the five values; the stream ends with [End]
    right after the second [Output], and no [ChannelComplete] for ["c"]
    is on it, before [End] or anywhere. *)
Lemma C5_counterexample :
  let s := run job0 body_channel_stream
             {| early := [];
                later := [StreamNext one; StreamNext two; Inbound Stop;
                          StreamNext three; StreamNext four; StreamNext five;
                          StreamComplete] |} in
  outbound s = [MsgStart job0; MsgOutput job0 one; MsgOutput job0 two; MsgEnd job0] /\
  ~ channel_complete_before_End job0 "c" (outbound s).
Proof.
  cbv zeta. split; [reflexivity|].
  intros (l1 & l2 & H & _).
  apply (f_equal (count isChannelComplete)) in H.
  rewrite count_app in H. simpl in H. lia.
Qed.

(** C5 (amended): when [Stop] arrives while the stream a body returned
    is in flight, the outbound stream is what had been sent so far
    followed by [End], and completes; its primary messages are
    [Start], the [Output]s of the values that came before the [Stop],
    [End], so no later value appears; the open channels are completed
    by the [Stop], after [End] and the completion of the stream, so
    that none is left open and none of their [ChannelComplete]
    messages reaches the stream. *)
Theorem C5_stop_in_flight (d : JobDescription) (body : Body)
    (msgs : list JobInboundMessage) (before after : list Event) :
  result body = ReturnsObservable ->
  no_Stop msgs = true ->
  forallb quiet (sync body) = true ->
  forallb quiet before = true ->
  let s0 := run d body {| early := msgs; later := before |} in
  let s := run d body {| early := msgs; later := before ++ Inbound Stop :: after |} in
  terminal s = Some Completed /\
  outbound s = outbound s0 ++ [MsgEnd d] /\
  primary (outbound s) = spec_stream_outputs d (stream_values before) /\
  count isChannelComplete (outbound s) = count isChannelComplete (outbound s0) /\
  channels (step d s0 (Inbound Stop)) = Some [] /\
  all_closed (step d s0 (Inbound Stop)) /\
  (forall vs, msgs = [] -> sync body = [] -> before = StreamNext <$> vs ->
     outbound s = spec_stream_outputs d vs).
Proof.
  intros Hres Hn Hq Hqb s0 s.
  destruct (stream_in_flight d body msgs before Hres Hn Hq Hqb)
    as (l & Ho & Ht & Hs & Hl & Hx).
  assert (Hs0 : s0 = steps d (subscribe d body msgs) before) by reflexivity.
  rewrite <- Hs0 in Ho, Ht, Hs.
  assert (Hrun : s = steps d (step d s0 (Inbound Stop)) after)
    by (subst s s0; unfold run; cbn [early later]; rewrite steps_app; reflexivity).
  assert (Hr : Reachable d s0) by apply Reachable_run.
  assert (Hc : channels s0 <> None) by apply chan_ok_started, run_chan_ok.
  destruct (stop_live d s0 Hr Hc Ht) as (Ht1 & Ho1 & Hc1 & Hcl1).
  destruct (frozen_after d after (step d s0 (Inbound Stop)) Completed Ht1) as [Ho2 Ht2].
  rewrite <- Hrun in Ho2, Ht2. cbn [step] in *. rewrite Ho1 in Ho2.
  split; [exact Ht2|]. split; [exact Ho2|]. split; [|split; [|split; [|split]]].
  - rewrite Ho2, Ho, primary_app, primary_app, primary_pongs. simpl.
    rewrite Hl. reflexivity.
  - rewrite Ho2, count_app. simpl. lia.
  - exact Hc1.
  - exact Hcl1.
  - intros vs He Hsy Hb. rewrite Ho2, Ho, He, (Hx Hsy).
    + rewrite Hb, stream_values_fmap. reflexivity.
    + rewrite Hb. apply isStreamNext_fmap.
Qed.

Lemma C5_stop_in_flight_witness :
  outbound (run job0 body_stream
     {| early := [];
        later := [StreamNext one; StreamNext two] ++ Inbound Stop ::
                 [StreamNext three; StreamNext four; StreamNext five; StreamComplete] |})
  = spec_stream_outputs job0 [one; two].
Proof.
  pose proof (C5_stop_in_flight job0 body_stream [] [StreamNext one; StreamNext two]
                [StreamNext three; StreamNext four; StreamNext five; StreamComplete]
                eq_refl eq_refl eq_refl eq_refl) as Hstop.
  cbv zeta in Hstop. destruct Hstop as (_ & _ & _ & _ & _ & _ & Hplain).
  apply (Hplain [one; two]); reflexivity.
Defined.

(** C6, as stated, fails: the body has channel ["c"] open, [Stop] is
    sent twice, and no [ChannelComplete] for ["c"] is on the stream,
    where the claim has exactly one. *)
Lemma C6_counterexample :
  let s := run job0 {| sync := [CallCreateChannel "c"]; result := ReturnsPromise |}
             {| early := []; later := [Inbound Stop; Inbound Stop] |} in
  outbound s = [MsgStart job0; MsgEnd job0] /\
  ~ one_teardown_signal job0 "c" (outbound s).
Proof. cbv zeta. split; [reflexivity|]. unfold one_teardown_signal. simpl. discriminate. Qed.

(** C6 (amended): when [Stop] is sent twice to a run that is live at
    the first, whatever happens in between, the stream has exactly one
    [End], namely right after what had been sent before the first
    [Stop]; the first [Stop] completes every open channel, once, and
    empties the map, but no [ChannelComplete] reaches the stream,
    which has completed by then; and a second [Stop] that follows the
    first changes nothing at all. *)
Theorem C6_stop_twice (d : JobDescription) (body : Body) (sched : Schedule)
    (between : list Event) :
  let s0 := run d body sched in
  terminal s0 = None ->
  let s1 := step d s0 (Inbound Stop) in
  let s2 := step d (steps d s1 between) (Inbound Stop) in
  count isEnd (outbound s2) = 1 /\
  outbound s2 = outbound s0 ++ [MsgEnd d] /\
  terminal s2 = Some Completed /\
  channels s1 = Some [] /\ all_closed s1 /\
  count isChannelComplete (outbound s2) = count isChannelComplete (outbound s0) /\
  step d s1 (Inbound Stop) = s1.
Proof.
  intros s0 Ht s1 s2.
  assert (Hr : Reachable d s0) by apply Reachable_run.
  assert (Hc : channels s0 <> None) by apply chan_ok_started, run_chan_ok.
  destruct (stop_live d s0 Hr Hc Ht) as (Ht1 & Ho1 & Hc1 & Hcl1).
  destruct (frozen_after d (between ++ [Inbound Stop]) s1 Completed Ht1) as [Ho2 Ht2].
  rewrite steps_app in Ho2, Ht2. change (steps d ?s [Inbound Stop]) with (step d s (Inbound Stop)) in *.
  fold s2 in Ho2, Ht2. subst s1. cbn [step] in *. rewrite Ho1 in Ho2.
  destruct (Reachable_Inv d s0 Hr) as (He & _). unfold ended_ok in He. rewrite Ht in He.
  repeat split; try assumption.
  - rewrite Ho2, count_app, He. reflexivity.
  - rewrite Ho2, count_app. simpl. lia.
  - apply stop_again; assumption.
Qed.

Lemma C6_stop_twice_witness :
  count isEnd (outbound
    (step job0
       (steps job0
          (step job0 (run job0 body_channel_stream
                        {| early := []; later := [StreamNext one] |}) (Inbound Stop))
          [StreamNext two])
       (Inbound Stop))) = 1.
Proof.
  apply (C6_stop_twice job0 body_channel_stream
           {| early := []; later := [StreamNext one] |} [StreamNext two]).
  reflexivity.
Defined.

(** ** C7: channels *)

Lemma lookup_new_subject (sj : list ChannelSubject) c : (sj ++ [c]) !! length sj = Some c.
Proof. apply list_lookup_middle. reflexivity. Qed.


Lemma channel_next_open d h v s c :
  subjects s !! h = Some c -> ch_open c = true -> terminal s = None ->
  channel_next d h v s
  = set_outbound (outbound s ++ [MsgChannelMessage d (ch_name c) v]) s.
Proof.
  intros Hc Ho Ht. unfold channel_next. rewrite Hc, Ho. apply subject_next_live, Ht.
Qed.

Lemma channel_complete_open d h s c :
  subjects s !! h = Some c -> ch_open c = true -> terminal s = None ->
  channel_complete d h s
  = set_channels (map_delete (ch_name c) <$> channels s)
      (set_outbound (outbound s ++ [MsgChannelComplete d (ch_name c)])
         (set_subjects (<[h := {| ch_name := ch_name c; ch_open := false |}]> (subjects s)) s)).
Proof.
  intros Hc Ho Ht. unfold channel_complete, close_subject. rewrite Hc, Ho.
  run_fields s. subst t. reflexivity.
Qed.

(** What [createChannel] returns when it does not throw. *)
Lemma createChannel_inr name s h s1 :
  createChannel name s = inr (h, s1) ->
  exists m,
    channels s = Some m /\ map_has name m = false /\ h = length (subjects s) /\
    s1 = set_channels (Some (map_set name h m))
           (set_subjects (subjects s ++ [{| ch_name := name; ch_open := true |}]) s).
Proof.
  unfold createChannel. destruct (channels s) as [m|]; [|discriminate].
  destruct (map_has name m) eqn:Hhas; [discriminate|].
  intros [= <- <-]. exists m. auto.
Qed.

Lemma createChannel_taken name s m :
  channels s = Some m -> map_has name m = true ->
  createChannel name s = inl (ChannelAlreadyExistException name).
Proof. intros Hc Hm. unfold createChannel. rewrite Hc, Hm. reflexivity. Qed.

Lemma createChannel_opens name s h s1 :
  createChannel name s = inr (h, s1) ->
  subjects s1 !! h = Some {| ch_name := name; ch_open := true |}.
Proof.
  intros Hc. destruct (createChannel_inr name s h s1 Hc) as (m & _ & _ & -> & ->).
  apply lookup_new_subject.
Qed.

Lemma map_has_delete name (m : list (string * nat)) :
  NoDup (m.*1) -> map_has name (map_delete name m) = false.
Proof.
  intros Hnd. apply map_has_false. intros Hin.
  apply list_elem_of_fmap in Hin as [[k v] [Hk Hin]]. simpl in Hk. subst k.
  apply elem_of_map_delete in Hin as [_ Hne]; [|assumption]. apply Hne. reflexivity.
Qed.

(** C7: while [name] is in the map, [createChannel name] throws
    [ChannelAlreadyExistException name] at the call and the run is as
    it was, the stream included; in a live run, for a handle that
    [createChannel name] returned and that is still open, the name is
    in the map, and two values pushed through the handle and its
    completion put exactly the two [ChannelMessage]s and the
    [ChannelComplete] on the stream, in that order, and take [name] out
    of the map, after which [createChannel name] succeeds and returns
    an open handle. *)
Theorem C7_channel_lifecycle (d : JobDescription) (name : string) (m1 m2 : JsonValue)
    (s : Run) (h : nat) :
  Reachable d s ->
  terminal s = None ->
  subjects s !! h = Some {| ch_name := name; ch_open := true |} ->
  (forall s' m', channels s' = Some m' -> map_has name m' = true ->
     createChannel name s' = inl (ChannelAlreadyExistException name) /\
     step d s' (CallCreateChannel name) = s') /\
  (exists m, channels s = Some m /\ map_has name m = true) /\
  let s2 := steps d s [ChannelNext h m1; ChannelNext h m2; ChannelDone h] in
  outbound s2 = outbound s ++ [MsgChannelMessage d name m1; MsgChannelMessage d name m2;
                               MsgChannelComplete d name] /\
  terminal s2 = None /\
  (exists m, channels s2 = Some m /\ map_has name m = false) /\
  (exists h' s3, createChannel name s2 = inr (h', s3) /\
     subjects s3 !! h' = Some {| ch_name := name; ch_open := true |}).
Proof.
  intros Hr Ht Hh.
  destruct (Reachable_Inv d s Hr) as (_ & _ & _ & [[_ Hnil]|Hok]);
    [rewrite Hnil in Hh; discriminate Hh|].
  destruct Hok as (m & Hm & Hnd & Hiff).
  assert (Hin : (name, h) ∈ m) by (apply Hiff; exact Hh).
  assert (Hhas : map_has name m = true)
    by (apply map_has_true; apply (list_elem_of_fmap_2 fst) in Hin; exact Hin).
  split; [|split].
  - intros s' m' Hc' Hhas'. pose proof (createChannel_taken name s' m' Hc' Hhas') as E.
    split; [exact E|]. simpl. rewrite E. reflexivity.
  - exists m. auto.
  - set (c := {| ch_name := name; ch_open := true |}) in *.
    assert (Hs2 : steps d s [ChannelNext h m1; ChannelNext h m2; ChannelDone h]
                  = set_channels (Some (map_delete name m))
                      (set_outbound (outbound s ++ [MsgChannelMessage d name m1;
                                                    MsgChannelMessage d name m2;
                                                    MsgChannelComplete d name])
                         (set_subjects
                            (<[h := {| ch_name := name; ch_open := false |}]> (subjects s)) s))).
    { unfold steps. cbn [foldl step].
      rewrite (channel_next_open d h m1 s c Hh eq_refl Ht).
      set (sB := set_outbound _ s).
      rewrite (channel_next_open d h m2 sB c Hh eq_refl Ht).
      set (sC := set_outbound _ sB).
      rewrite (channel_complete_open d h sC c Hh eq_refl Ht).
      subst sC sB c. run_fields s. subst t ch. cbn.
      rewrite <- !app_assoc. reflexivity. }
    cbv zeta. rewrite Hs2.
    cbn [outbound terminal channels subjects set_channels set_outbound set_subjects].
    pose proof (map_has_delete name m Hnd) as Hgone.
    split; [reflexivity|]. split; [assumption|]. split; [exists (map_delete name m); auto|].
    unfold createChannel. cbn [channels subjects set_channels set_outbound set_subjects].
    rewrite Hgone. eexists _, _. split; [reflexivity|].
    cbn [subjects set_channels set_subjects]. apply lookup_new_subject.
Qed.

Lemma C7_channel_lifecycle_witness :
  outbound (steps job0 (run job0 body_channel_stream nothing_else)
              [ChannelNext 0 one; ChannelNext 0 two; ChannelDone 0])
  = outbound (run job0 body_channel_stream nothing_else)
    ++ [MsgChannelMessage job0 "c" one; MsgChannelMessage job0 "c" two;
        MsgChannelComplete job0 "c"].
Proof.
  apply (C7_channel_lifecycle job0 "c" one two
           (run job0 body_channel_stream nothing_else) 0).
  - apply Reachable_run.
  - reflexivity.
  - reflexivity.
Defined.

(** ** C8: [Ping] *)

Lemma ping_ignored d id s :
  isStopped s = true -> deliver d (Ping id) s = s.
Proof.
  intros Hs. unfold deliver. destruct (inbound_open s); [|reflexivity].
  simpl. apply subject_next_stopped, Hs.
Qed.

(** C8: at any point of a run, before, while or after the body is
    called, a [Ping id] delivered while there is no [End] on the stream
    and the stream has not failed puts exactly one message on it, the
    [Pong] with that [id] and the description, and changes nothing
    else; once [End] is on the stream a [Ping] changes nothing; and
    since [Stop] sends [End] at once, a [Ping] that follows a [Stop]
    is one of those. *)
Theorem C8_ping (d : JobDescription) (s : Run) (id : Z) :
  Reachable d s ->
  (count isEnd (outbound s) = 0 -> (forall err, terminal s <> Some (Failed err)) ->
     step d s (Inbound (Ping id)) = set_outbound (outbound s ++ [MsgPong d id]) s) /\
  (count isEnd (outbound s) <> 0 -> step d s (Inbound (Ping id)) = s) /\
  step d (step d s (Inbound Stop)) (Inbound (Ping id)) = step d s (Inbound Stop).
Proof.
  intros Hr. destruct (Reachable_Inv d s Hr) as (He & Hi & Hsh & Hch).
  cbn [step]. split; [|split].
  - intros Hend Hfail. unfold ended_ok in He.
    destruct (terminal s) as [[|err]|] eqn:Ht.
    + destruct He as (l & Ho & _). rewrite Ho, count_app in Hend. simpl in Hend. lia.
    + exfalso. apply (Hfail err). reflexivity.
    + unfold deliver. rewrite (Hi Ht). simpl. apply subject_next_live, Ht.
  - intros Hend. apply ping_ignored. unfold ended_ok, isStopped in *.
    destruct (terminal s) as [[|err]|]; try reflexivity; contradiction.
  - apply ping_ignored. destruct (live_or_stopped s) as [Ht|Hs].
    + specialize (Hi Ht). run_fields s. subst t io. unfold isStopped.
      destruct ch as [m|].
      * destruct (deliver_stop_live d (mkRun o None true (Some m) sj sub pr ic un) m
                    eq_refl eq_refl eq_refl) as [_ Hte].
        rewrite Hte. destruct sub; reflexivity.
      * destruct sub; reflexivity.
    + eapply same_stream_stopped; [apply deliver_frozen|]; assumption.
Qed.

Lemma C8_ping_witness :
  step job0 (run job0 body_promise nothing_else) (Inbound (Ping 7))
  = set_outbound (outbound (run job0 body_promise nothing_else) ++ [MsgPong job0 7])
      (run job0 body_promise nothing_else) /\
  step job0 (run job0 body_scalar nothing_else) (Inbound (Ping 7))
  = run job0 body_scalar nothing_else.
Proof.
  split.
  - destruct (C8_ping job0 (run job0 body_promise nothing_else) 7
                (Reachable_run job0 body_promise nothing_else)) as (Hlive & _ & _).
    apply Hlive; [reflexivity|discriminate].
  - destruct (C8_ping job0 (run job0 body_scalar nothing_else) 7
                (Reachable_run job0 body_scalar nothing_else)) as (_ & Hended & _).
    apply Hended. discriminate.
Defined.

(** ** C9: the logging wrapper *)

Section LoggerJobFacts.

Variable stringify_message : JobOutboundMessage -> JsAny + string.
Variable stringify_error : JsAny -> JsAny + string.

Lemma tap_values_printable ms (l : LoggerApi) :
  (forall m, m ∈ ms -> exists text, stringify_message m = inr text) ->
  exists l', tap_values (log_message stringify_message) ms l = (ms, None, l').
Proof.
  revert l. induction ms as [|m ms IH]; intros l Hp; simpl.
  - exists l. reflexivity.
  - destruct (Hp m) as (text & Htext); [left|].
    unfold log_message at 1. rewrite Htext.
    destruct (IH (logger_info ("Message: " +:+ text) l)) as (l' & Hl').
    { intros m' Hm'. apply Hp. right. exact Hm'. }
    rewrite Hl'. exists l'. reflexivity.
Qed.

(** The wrapper never adds a message: what it delivers is the
    beginning of what the wrapped handler delivers. *)
Lemma tap_values_prefix ms (l : LoggerApi) :
  exists rest,
    ms = (tap_values (log_message stringify_message) ms l).1.1 ++ rest.
Proof.
  revert l. induction ms as [|m ms IH]; intros l; simpl.
  - exists []. reflexivity.
  - destruct (log_message stringify_message m l) as [thrown|l1].
    + exists (m :: ms). reflexivity.
    + destruct (IH l1) as (rest & Hrest).
      destruct (tap_values _ ms l1) as [[out failure] l2]. simpl in *.
      exists rest. rewrite <- Hrest. reflexivity.
Qed.

End LoggerJobFacts.

(** C9, as stated, fails: the wrapped handler's stream fails with an
    object that [JSON.stringify] cannot print; the error callback of
    the wrapper throws, and the wrapper's stream fails with that
    exception instead. *)
Lemma C9_counterexample :
  let sched := {| early := []; later := [PromiseReject (AnyObject 0)] |} in
  ending (call promise_job one context0 sched) = Some (Failed (AnyObject 0)) /\
  ending (call (createLoggerJob sample_stringify_message sample_stringify_error
                  promise_job []) one context0 sched)
    = Some (Failed (AnyException (TypeError "Converting circular structure to JSON"))) /\
  call (createLoggerJob sample_stringify_message sample_stringify_error promise_job [])
       one context0 sched
    <> call promise_job one context0 sched.
Proof. cbv zeta. repeat split. discriminate. Qed.

(** C9 (amended): for every wrapped handler, sink, argument, context
    and schedule, the wrapper delivers the messages of the wrapped
    handler in the same order and ends the same way, whenever
    [JSON.stringify] prints each of those messages and, if the wrapped
    stream fails, the value it fails with.  The properties of the
    wrapper are those of the wrapped handler. *)
Theorem C9_logger_transparent
    (stringify_message : JobOutboundMessage -> JsAny + string)
    (stringify_error : JsAny -> JsAny + string)
    (job : JobHandler) (logger : LoggerApi)
    (argument : JsonValue) (context : JobHandlerContext) (sched : Schedule) :
  let t := call job argument context sched in
  (forall m, m ∈ delivered t -> exists text, stringify_message m = inr text) ->
  (forall err, ending t = Some (Failed err) -> exists text, stringify_error err = inr text) ->
  call (createLoggerJob stringify_message stringify_error job logger) argument context sched
  = t.
Proof.
  intros t Hm He. cbn [call createLoggerJob]. unfold createLoggerJob_outbound, tap. fold t.
  destruct (tap_values_printable stringify_message (delivered t) ([] : LoggerApi) Hm) as (l' & Hl').
  rewrite Hl'. destruct t as [ms [[|err]|]]; cbn [ending delivered] in *.
  - reflexivity.
  - destruct (He err eq_refl) as (text & Htext). unfold log_error. rewrite Htext. reflexivity.
  - reflexivity.
Qed.

Lemma C9_logger_transparent_witness :
  call (createLoggerJob sample_stringify_message sample_stringify_error promise_job [])
       one context0 {| early := []; later := [PromiseResolve two] |}
  = call promise_job one context0 {| early := []; later := [PromiseResolve two] |}.
Proof.
  apply (C9_logger_transparent sample_stringify_message sample_stringify_error
           promise_job [] one context0 {| early := []; later := [PromiseResolve two] |}).
  - intros m _. exists "{}". reflexivity.
  - intros err H. discriminate H.
Defined.

(** ** C10: the properties of the handlers *)

Lemma Object_assign_fresh (source : gmap string JsonValue) : Object_assign ∅ source = source.
Proof. unfold Object_assign. apply map_union_empty. Qed.

(** C10: the handler [createJobHandler] returns has the property
    [jobDescription] equal to the options it was given, and to the
    empty object when they are left out; so has the one
    [createJobFactory] returns; the handler [createLoggerJob] returns
    has the properties of the wrapped handler, [jobDescription] among
    them. *)
Theorem C10_jobDescription :
  (forall fn options, jobDescription (createJobHandler fn (Some options)) = Some options) /\
  (forall fn, jobDescription (createJobHandler fn None) = Some emptyObject) /\
  (forall loader options, jobDescription (createJobFactory loader options) = Some options) /\
  (forall stringify_message stringify_error job logger,
     properties (createLoggerJob stringify_message stringify_error job logger)
     = properties job) /\
  (forall stringify_message stringify_error job logger,
     jobDescription (createLoggerJob stringify_message stringify_error job logger)
     = jobDescription job).
Proof.
  unfold jobDescription. cbn [properties createJobHandler createJobFactory createLoggerJob].
  repeat split; intros; rewrite Object_assign_fresh; try reflexivity;
    apply lookup_singleton_eq.
Qed.

(** * Further properties of the code *)

Section MoreRunFacts.

Variable d : JobDescription.

(** ** What the inbound callback keeps to itself *)

Lemma same_inbox_refl s : same_inbox s s.
Proof. repeat split. Qed.

Lemma same_inbox_trans s1 s2 s3 :
  same_inbox s1 s2 -> same_inbox s2 s3 -> same_inbox s1 s3.
Proof. intros (? & ? & ?) (? & ? & ?). repeat split; congruence. Qed.

Lemma channel_complete_inbox h s : same_inbox s (channel_complete d h s).
Proof.
  unfold channel_complete. destruct (subjects s !! h) as [c|] eqn:Hc; [|apply same_inbox_refl].
  destruct (ch_open c); [|apply same_inbox_refl].
  unfold close_subject, subject_next. rewrite Hc.
  destruct (isStopped _); repeat split.
Qed.

Lemma forEach_complete_inbox todo s : same_inbox s (forEach_complete d todo s).
Proof.
  revert s. induction todo as [|[name h] todo IH]; intros s; simpl; [apply same_inbox_refl|].
  destruct (channels s) as [m|]; [|apply IH].
  destruct (existsb _ m); [|apply IH].
  eapply same_inbox_trans; [apply channel_complete_inbox|apply IH].
Qed.

(** Once the map exists, or once the callback is unsubscribed, an
    event changes nothing of the inbox but for the value of an [Input]
    that is delivered. *)
Lemma step_inbox e s :
  channels s <> None \/ inbound_open s = false ->
  inbound_open (step d s e) = inbound_open s /\
  uncaught (step d s e) = uncaught s /\
  inputChannel (step d s e)
  = inputChannel s ++ (if inbound_open s then event_inputs [e] else []).
Proof.
  intros Hc.
  assert (Hsame : forall s', same_inbox s s' -> event_inputs [e] = [] ->
            inbound_open s' = inbound_open s /\ uncaught s' = uncaught s /\
            inputChannel s'
            = inputChannel s ++ (if inbound_open s then event_inputs [e] else [])).
  { intros s' (H1 & H2 & H3) ->. rewrite H1, H2, H3.
    destruct (inbound_open s); rewrite app_nil_r; auto. }
  destruct e as [[id| |v]|name|h v|h err|h|entry|v|err|v|err|]; cbn [step].
  - apply Hsame; [|reflexivity]. unfold deliver. destruct (inbound_open s); [|apply same_inbox_refl].
    simpl. unfold subject_next. destruct (isStopped s); repeat split.
  - apply Hsame; [|reflexivity]. unfold deliver.
    destruct (inbound_open s) eqn:Hi; [|apply same_inbox_refl].
    destruct Hc as [Hc|Hc]; [|discriminate Hc].
    destruct (channels s) as [m|] eqn:Hm; [|contradiction].
    pose proof (deliver_stop_eq d s m Hi Hm) as E. unfold deliver in E. rewrite Hi in E.
    rewrite E. eapply same_inbox_trans; [|apply forEach_complete_inbox].
    unfold subject_complete, subject_next, unsubscribe, teardown.
    run_fields s. destruct sub, t; repeat split.
  - unfold deliver. destruct (inbound_open s) eqn:Hi; simpl; rewrite ?app_nil_r; auto.
  - apply Hsame; [|reflexivity]. unfold createChannel.
    destruct (channels s) as [m|]; [|apply same_inbox_refl].
    destruct (map_has name m); repeat split.
  - apply Hsame; [|reflexivity]. unfold channel_next.
    destruct (subjects s !! h) as [c|]; [|apply same_inbox_refl].
    destruct (ch_open c); [|apply same_inbox_refl].
    unfold subject_next. destruct (isStopped s); repeat split.
  - apply Hsame; [|reflexivity]. unfold channel_error.
    destruct (subjects s !! h) as [c|] eqn:Hh; [|apply same_inbox_refl].
    destruct (ch_open c); [|apply same_inbox_refl].
    unfold close_subject, subject_next. rewrite Hh. destruct (isStopped _); repeat split.
  - apply Hsame; [|reflexivity]. apply channel_complete_inbox.
  - apply Hsame; [|reflexivity]. unfold subject_next. destruct (isStopped s); repeat split.
  - apply Hsame; [|reflexivity]. destruct (promise s); [|apply same_inbox_refl].
    unfold subject_complete, subject_next, teardown.
    run_fields s. destruct sub, t; repeat split.
  - apply Hsame; [|reflexivity]. destruct (promise s); [|apply same_inbox_refl].
    unfold subject_error, teardown. run_fields s. destruct sub, t; repeat split.
  - apply Hsame; [|reflexivity]. destruct (subscription s) as [[|]|]; try apply same_inbox_refl.
    unfold subject_next. destruct (isStopped s); repeat split.
  - apply Hsame; [|reflexivity]. destruct (subscription s) as [[|]|]; try apply same_inbox_refl.
    unfold subject_error, teardown. run_fields s. destruct t; repeat split.
  - apply Hsame; [|reflexivity]. destruct (subscription s) as [[|]|]; try apply same_inbox_refl.
    unfold subject_complete, subject_next, teardown. run_fields s. destruct t; repeat split.
Qed.

Lemma dispatch_inbox r s : same_inbox s (dispatch d r s).
Proof.
  destruct r; simpl; unfold subject_complete, subject_error, subject_next, teardown;
    run_fields s; destruct sub, t; repeat split.
Qed.

Lemma event_inputs_app es1 es2 :
  event_inputs (es1 ++ es2) = event_inputs es1 ++ event_inputs es2.
Proof.
  induction es1 as [|e es1 IH]; simpl; [reflexivity|].
  destruct e as [[id| |v]|name|h v|h err|h|entry|v|err|v|err|]; simpl; rewrite ?IH; reflexivity.
Qed.

Lemma steps_inbox es s :
  chan_ok s \/ inbound_open s = false ->
  inbound_open (steps d s es) = inbound_open s /\
  uncaught (steps d s es) = uncaught s /\
  inputChannel (steps d s es)
  = inputChannel s ++ (if inbound_open s then event_inputs es else []).
Proof.
  revert s. induction es as [|e es IH]; intros s Hc.
  - simpl. destruct (inbound_open s); rewrite app_nil_r; auto.
  - change (steps d s (e :: es)) with (steps d (step d s e) es).
    destruct (step_inbox e s) as (H1 & H2 & H3).
    { destruct Hc as [Hc|Hc]; [left; apply (chan_ok_started s Hc)|right; exact Hc]. }
    destruct (IH (step d s e)) as (H4 & H5 & H6).
    { destruct Hc as [Hc|Hc]; [left; apply step_ok, Hc|right; congruence]. }
    rewrite H4, H5, H6, H1, H2, H3.
    change (e :: es) with ([e] ++ es). rewrite event_inputs_app.
    destruct (inbound_open s); rewrite <- ?app_assoc, ?app_nil_r; auto.
Qed.

(** ** Side traffic *)

Lemma adds_refl s : adds d s s.
Proof.
  split; [|auto]. exists []. rewrite app_nil_r. repeat split. constructor.
Qed.

Lemma adds_trans s1 s2 s3 : adds d s1 s2 -> adds d s2 s3 -> adds d s1 s3.
Proof.
  intros [(l1 & Ho1 & Hd1 & Hc1) [Hp1 Hs1]] [(l2 & Ho2 & Hd2 & Hc2) [Hp2 Hs2]].
  split; [|auto]. exists (l1 ++ l2). rewrite Ho2, Ho1, <- app_assoc, count_app.
  repeat split; [apply Forall_app; auto|lia].
Qed.

(** A state that differs from [s] in fields the stream does not show. *)
Lemma adds_silent s s' :
  outbound s' = outbound s -> promise s' = promise s ->
  (subscription s' = Some true -> subscription s = Some true) -> adds d s s'.
Proof.
  intros Ho Hp Hs. split; [|split; [congruence|exact Hs]].
  exists []. rewrite app_nil_r. repeat split; [exact Ho|constructor].
Qed.

Lemma adds_next m s :
  message_description m = d -> isOutput m = false -> adds d s (subject_next m s).
Proof.
  intros Hd Hm. unfold subject_next. destruct (isStopped s); [apply adds_refl|].
  split; [|auto]. exists [m]. repeat split.
  - constructor; [exact Hd|constructor].
  - simpl. rewrite Hm. reflexivity.
Qed.

Lemma adds_complete s : adds d s (subject_complete s).
Proof.
  unfold subject_complete, teardown. destruct (isStopped s); [apply adds_refl|].
  run_fields s. destruct sub; apply adds_silent; cbn; auto; discriminate.
Qed.

Lemma adds_error err s : adds d s (subject_error err s).
Proof.
  unfold subject_error, teardown. destruct (isStopped s); [apply adds_refl|].
  run_fields s. destruct sub; apply adds_silent; cbn; auto; discriminate.
Qed.

Lemma adds_close h m s name :
  message_description m = d -> isOutput m = false ->
  adds d s (channels_delete name (subject_next m (close_subject h s))).
Proof.
  intros Hd Hm.
  apply (adds_trans s (close_subject h s)).
  { unfold close_subject. destruct (subjects s !! h); [|apply adds_refl].
    apply adds_silent; auto. }
  apply (adds_trans _ (subject_next m (close_subject h s))).
  { apply adds_next; assumption. }
  apply adds_silent; auto.
Qed.

Lemma channel_complete_adds h s : adds d s (channel_complete d h s).
Proof.
  unfold channel_complete. destruct (subjects s !! h) as [c|]; [|apply adds_refl].
  destruct (ch_open c); [|apply adds_refl]. apply adds_close; reflexivity.
Qed.

Lemma forEach_complete_adds todo s : adds d s (forEach_complete d todo s).
Proof.
  revert s. induction todo as [|[name h] todo IH]; intros s; simpl; [apply adds_refl|].
  destruct (channels s) as [m|]; [|apply IH].
  destruct (existsb _ m); [|apply IH].
  eapply adds_trans; [apply channel_complete_adds|apply IH].
Qed.

Lemma deliver_adds msg s : adds d s (deliver d msg s).
Proof.
  unfold deliver. destruct (inbound_open s); [|apply adds_refl].
  destruct msg as [id| |v]; simpl.
  - apply adds_next; reflexivity.
  - set (s3 := subject_complete _).
    assert (H3 : adds d s s3).
    { subst s3. apply (adds_trans s (unsubscribe s)).
      { unfold unsubscribe. destruct (subscription s) eqn:Hs; [|apply adds_refl].
        apply adds_silent; cbn; auto; try discriminate. }
      apply (adds_trans _ (subject_next (MsgEnd d) (unsubscribe s)));
        [apply adds_next; reflexivity|apply adds_complete]. }
    destruct (channels s3) as [m|].
    + eapply adds_trans; [exact H3|apply forEach_complete_adds].
    + eapply adds_trans; [exact H3|]. apply adds_silent; auto.
  - apply adds_silent; auto.
Qed.

(** Every event but the resolution of a pending promise and a value of
    a subscribed stream is side traffic. *)
Lemma step_adds e s :
  match e with
  | PromiseResolve _ => promise s = false
  | StreamNext _ => subscription s <> Some true
  | _ => True
  end ->
  adds d s (step d s e).
Proof.
  destruct e as [msg|name|h v|h err|h|entry|v|err|v|err|]; cbn [step]; intros He.
  - apply deliver_adds.
  - unfold createChannel. destruct (channels s) as [m|]; [|apply adds_refl].
    destruct (map_has name m); [apply adds_refl|]. apply adds_silent; auto.
  - unfold channel_next. destruct (subjects s !! h) as [c|]; [|apply adds_refl].
    destruct (ch_open c); [|apply adds_refl]. apply adds_next; reflexivity.
  - unfold channel_error. destruct (subjects s !! h) as [c|]; [|apply adds_refl].
    destruct (ch_open c); [|apply adds_refl]. apply adds_close; reflexivity.
  - apply channel_complete_adds.
  - apply adds_next; reflexivity.
  - rewrite He. apply adds_refl.
  - destruct (promise s); [|apply adds_refl].
    apply (adds_trans s (set_promise false s)); [|apply adds_error].
    split; [|split; [discriminate|auto]].
    exists []. rewrite app_nil_r. repeat split. constructor.
  - destruct (subscription s) as [[|]|]; try apply adds_refl. contradiction.
  - destruct (subscription s) as [[|]|] eqn:Hs; try apply adds_refl.
    apply (adds_trans s (set_subscription (Some false) s)); [|apply adds_error].
    apply adds_silent; cbn; auto; try discriminate.
  - destruct (subscription s) as [[|]|] eqn:Hs; try apply adds_refl.
    apply (adds_trans s (set_subscription (Some false) s)).
    { apply adds_silent; cbn; auto; try discriminate. }
    apply (adds_trans _ (subject_next (MsgEnd d) (set_subscription (Some false) s)));
      [apply adds_next; reflexivity|apply adds_complete].
Qed.

Lemma adds_described s s' :
  adds d s s' -> described d (outbound s) -> described d (outbound s').
Proof.
  intros [(l & Ho & Hd & _) _] H. rewrite Ho. apply Forall_app. auto.
Qed.

Lemma adds_bounded n s s' :
  adds d s s' -> outputs_bounded n s -> outputs_bounded n s'.
Proof.
  intros [(l & Ho & _ & Hc) [Hp Hs]] [Hsub Hn]. split.
  - intros H. apply Hsub, Hs, H.
  - rewrite Ho, count_app, Hc.
    destruct (promise s') eqn:Hp'; [rewrite (Hp eq_refl) in Hn|destruct (promise s)]; lia.
Qed.

(** ** Every message carries the description *)

Lemma step_described e s :
  described d (outbound s) -> described d (outbound (step d s e)).
Proof.
  intros H.
  assert (Hnext : forall m s0, message_description m = d ->
            described d (outbound s0) -> described d (outbound (subject_next m s0))).
  { intros m s0 Hm H0. unfold subject_next. destruct (isStopped s0); [exact H0|].
    cbn. apply Forall_app. split; [exact H0|]. constructor; [exact Hm|constructor]. }
  destruct e as [msg|name|h v|h err|h|entry|v|err|v|err|];
    try (apply (adds_described s); [apply step_adds; exact I|exact H]).
  - cbn [step]. destruct (promise s); [|exact H].
    apply (adds_described (subject_next (MsgEnd d)
             (subject_next (MsgOutput d v) (set_promise false s)))); [apply adds_complete|].
    apply Hnext; [reflexivity|]. apply Hnext; [reflexivity|exact H].
  - cbn [step]. destruct (subscription s) as [[|]|]; try exact H.
    apply Hnext; [reflexivity|exact H].
Qed.

Lemma steps_described es s :
  described d (outbound s) -> described d (outbound (steps d s es)).
Proof.
  revert s. induction es as [|e es IH]; intros s H; simpl; [exact H|].
  apply IH, step_described, H.
Qed.

Lemma dispatch_described r s :
  described d (outbound s) -> described d (outbound (dispatch d r s)).
Proof.
  intros H. destruct r; cbn [dispatch]; try exact H.
  - apply (adds_described (subject_next (MsgEnd d) (subject_next (MsgOutput d value) s)));
      [apply adds_complete|].
    unfold subject_next at 1. destruct (isStopped _).
    + unfold subject_next. destruct (isStopped s); [exact H|].
      cbn. apply Forall_app. split; [exact H|]. repeat constructor.
    + cbn. apply Forall_app. split; [|repeat constructor].
      unfold subject_next. destruct (isStopped s); [exact H|].
      cbn. apply Forall_app. split; [exact H|]. repeat constructor.
  - apply (adds_described s); [apply adds_error|exact H].
Qed.

(** ** Outputs of a body that returned no stream *)

Lemma step_bounded n e s : outputs_bounded n s -> outputs_bounded n (step d s e).
Proof.
  intros Hb. pose proof Hb as [Hsub Hn].
  destruct e as [msg|name|h v|h err|h|entry|v|err|v|err|];
    try (apply (adds_bounded n s); [apply step_adds; exact I|exact Hb]).
  - destruct (promise s) eqn:Hp.
    + cbn [step]. rewrite Hp. run_fields s. subst pr.
      split; [destruct t, sub as [[|]|]; cbn; congruence|].
      destruct t, sub as [[|]|]; cbn; rewrite ?count_app; simpl; lia.
    + apply (adds_bounded n s); [apply step_adds; exact Hp|exact Hb].
  - apply (adds_bounded n s); [apply step_adds; exact Hsub|exact Hb].
Qed.

Lemma steps_bounded n es s : outputs_bounded n s -> outputs_bounded n (steps d s es).
Proof.
  revert s. induction es as [|e es IH]; intros s H; simpl; [exact H|].
  apply IH, step_bounded, H.
Qed.

Lemma dispatch_bounded r s :
  r <> ReturnsObservable -> outputs_bounded 0 s ->
  outputs_bounded (match r with Throws _ => 0 | _ => 1 end) (dispatch d r s).
Proof.
  intros Hr [Hsub Hn]. destruct r; [| |contradiction|]; cbn [dispatch].
  - run_fields s. destruct pr; [lia|].
    split; [destruct t, sub as [[|]|]; cbn; congruence|].
    destruct t, sub as [[|]|]; cbn; rewrite ?count_app; simpl; lia.
  - split; [exact Hsub|]. cbn. lia.
  - apply (adds_bounded 0 s); [apply adds_error|split; assumption].
Qed.

(** ** The subjects made so far *)

Lemma subjects_grow_refl s : subjects_grow s s.
Proof. intros h c Hc. exists c. auto. Qed.

Lemma subjects_grow_trans s1 s2 s3 :
  subjects_grow s1 s2 -> subjects_grow s2 s3 -> subjects_grow s1 s3.
Proof.
  intros H12 H23 h c Hc. destruct (H12 h c Hc) as (c2 & Hc2 & Hn2 & Ho2).
  destruct (H23 h c2 Hc2) as (c3 & Hc3 & Hn3 & Ho3).
  exists c3. repeat split; [exact Hc3|congruence|auto].
Qed.

Lemma subjects_grow_same s s' : subjects s' = subjects s -> subjects_grow s s'.
Proof. intros E h c Hc. exists c. rewrite E. auto. Qed.

Lemma subjects_grow_close h0 c0 name msg s :
  subjects s !! h0 = Some c0 ->
  subjects_grow s (channels_delete name (subject_next msg (close_subject h0 s))).
Proof.
  intros H0. destruct (close_fields h0 c0 name msg s H0) as [_ Hsj].
  intros h c Hc. rewrite Hsj.
  destruct (decide (h0 = h)) as [<-|Hne].
  - rewrite list_lookup_insert_eq by (eapply lookup_lt_Some; eassumption).
    eexists. split; [reflexivity|]. split; [simpl; congruence|auto].
  - rewrite list_lookup_insert_ne by assumption. exists c. auto.
Qed.

Lemma channel_complete_grow h s : subjects_grow s (channel_complete d h s).
Proof.
  unfold channel_complete. destruct (subjects s !! h) as [c|] eqn:Hc; [|apply subjects_grow_refl].
  destruct (ch_open c); [|apply subjects_grow_refl].
  eapply subjects_grow_close; eassumption.
Qed.

Lemma forEach_complete_grow todo s : subjects_grow s (forEach_complete d todo s).
Proof.
  revert s. induction todo as [|[name h] todo IH]; intros s; simpl; [apply subjects_grow_refl|].
  destruct (channels s) as [m|]; [|apply IH].
  destruct (existsb _ m); [|apply IH].
  eapply subjects_grow_trans; [apply channel_complete_grow|apply IH].
Qed.

Lemma step_grow e s : subjects_grow s (step d s e).
Proof.
  destruct e as [[id| |v]|name|h v|h err|h|entry|v|err|v|err|]; cbn [step].
  - apply subjects_grow_same. unfold deliver. destruct (inbound_open s); [|reflexivity].
    simpl. unfold subject_next. destruct (isStopped s); reflexivity.
  - unfold deliver. destruct (inbound_open s); [|apply subjects_grow_refl]. simpl.
    set (s3 := subject_complete _).
    assert (H3 : subjects_grow s s3).
    { apply subjects_grow_same. subst s3.
      unfold subject_complete, subject_next, unsubscribe, teardown.
      run_fields s. destruct sub, t; reflexivity. }
    destruct (channels s3) as [m|].
    + eapply subjects_grow_trans; [exact H3|apply forEach_complete_grow].
    + eapply subjects_grow_trans; [exact H3|]. apply subjects_grow_same. reflexivity.
  - apply subjects_grow_same. unfold deliver. destruct (inbound_open s); reflexivity.
  - unfold createChannel. destruct (channels s) as [m|]; [|apply subjects_grow_refl].
    destruct (map_has name m); [apply subjects_grow_refl|].
    intros h c Hc. exists c. cbn. rewrite lookup_app_l; [auto|].
    eapply lookup_lt_Some; eassumption.
  - apply subjects_grow_same. unfold channel_next.
    destruct (subjects s !! h) as [c|]; [|reflexivity].
    destruct (ch_open c); [|reflexivity]. unfold subject_next. destruct (isStopped s); reflexivity.
  - unfold channel_error. destruct (subjects s !! h) as [c|] eqn:Hc; [|apply subjects_grow_refl].
    destruct (ch_open c); [|apply subjects_grow_refl].
    eapply subjects_grow_close; eassumption.
  - apply channel_complete_grow.
  - apply subjects_grow_same. unfold subject_next. destruct (isStopped s); reflexivity.
  - apply subjects_grow_same. destruct (promise s); [|reflexivity].
    unfold subject_complete, subject_next, teardown. run_fields s. destruct sub, t; reflexivity.
  - apply subjects_grow_same. destruct (promise s); [|reflexivity].
    unfold subject_error, teardown. run_fields s. destruct sub, t; reflexivity.
  - apply subjects_grow_same. destruct (subscription s) as [[|]|]; try reflexivity.
    unfold subject_next. destruct (isStopped s); reflexivity.
  - apply subjects_grow_same. destruct (subscription s) as [[|]|]; try reflexivity.
    unfold subject_error, teardown. run_fields s. destruct t; reflexivity.
  - apply subjects_grow_same. destruct (subscription s) as [[|]|]; try reflexivity.
    unfold subject_complete, subject_next, teardown. run_fields s. destruct t; reflexivity.
Qed.

Lemma steps_grow es s : subjects_grow s (steps d s es).
Proof.
  revert s. induction es as [|e es IH]; intros s; simpl; [apply subjects_grow_refl|].
  eapply subjects_grow_trans; [apply step_grow|apply IH].
Qed.

(** An event on a closed handle finds no observer. *)
Lemma closed_handle_inert h c s :
  subjects s !! h = Some c -> ch_open c = false ->
  (forall v, step d s (ChannelNext h v) = s) /\
  (forall err, step d s (ChannelFail h err) = s) /\
  step d s (ChannelDone h) = s.
Proof.
  intros Hc Ho. cbn [step]. unfold channel_next, channel_error, channel_complete.
  rewrite Hc, Ho. auto.
Qed.

(** After its completion or its failure a subject is closed. *)
Lemma closed_after h c s :
  subjects s !! h = Some c ->
  (exists c', subjects (channel_complete d h s) !! h = Some c' /\ ch_open c' = false) /\
  (forall err,
     exists c', subjects (channel_error d h err s) !! h = Some c' /\ ch_open c' = false).
Proof.
  intros Hc. unfold channel_complete, channel_error. rewrite Hc.
  destruct (ch_open c) eqn:Ho.
  - assert (Hlt : h < length (subjects s)) by (eapply lookup_lt_Some; eassumption).
    split; [|intros err].
    + destruct (close_fields h c (ch_name c) (MsgChannelComplete d (ch_name c)) s Hc)
        as [_ ->].
      rewrite list_lookup_insert_eq by assumption. eauto.
    + destruct (close_fields h c (ch_name c) (MsgChannelError d (ch_name c) err) s Hc)
        as [_ ->].
      rewrite list_lookup_insert_eq by assumption. eauto.
  - split; [|intros err]; exists c; auto.
Qed.

End MoreRunFacts.

(** ** Channels that fail, and handles that are closed *)

Lemma channel_error_open d h err s c :
  subjects s !! h = Some c -> ch_open c = true -> terminal s = None ->
  channel_error d h err s
  = set_channels (map_delete (ch_name c) <$> channels s)
      (set_outbound (outbound s ++ [MsgChannelError d (ch_name c) err])
         (set_subjects (<[h := {| ch_name := ch_name c; ch_open := false |}]> (subjects s)) s)).
Proof.
  intros Hc Ho Ht. unfold channel_error, close_subject. rewrite Hc, Ho.
  run_fields s. subst t. reflexivity.
Qed.

(** X1: in a live run, failing an open handle of channel [name] puts
    exactly one [ChannelError] with that name and error on the stream,
    does not end the run, closes the handle and takes [name] out of the
    map, so that [createChannel name] succeeds again and returns
    another handle. *)
Theorem X1_channel_error (d : JobDescription) (name : string) (err : JsAny)
    (s : Run) (h : nat) :
  Reachable d s ->
  terminal s = None ->
  subjects s !! h = Some {| ch_name := name; ch_open := true |} ->
  let s1 := step d s (ChannelFail h err) in
  outbound s1 = outbound s ++ [MsgChannelError d name err] /\
  terminal s1 = None /\
  (exists m, channels s1 = Some m /\ map_has name m = false) /\
  subjects s1 !! h = Some {| ch_name := name; ch_open := false |} /\
  (exists h' s2, createChannel name s1 = inr (h', s2) /\ h' <> h /\
     subjects s2 !! h' = Some {| ch_name := name; ch_open := true |}).
Proof.
  intros Hr Ht Hh.
  destruct (Reachable_Inv d s Hr) as (_ & _ & _ & [[_ Hnil]|Hok]);
    [rewrite Hnil in Hh; discriminate Hh|].
  destruct Hok as (m & Hm & Hnd & Hiff).
  assert (Hlt : h < length (subjects s)) by (eapply lookup_lt_Some; eassumption).
  cbv zeta. cbn [step].
  rewrite (channel_error_open d h err s _ Hh eq_refl Ht).
  cbn [outbound terminal channels subjects set_channels set_outbound set_subjects ch_name].
  rewrite Hm. cbn [fmap option_fmap option_map].
  pose proof (map_has_delete name m Hnd) as Hgone.
  split; [reflexivity|]. split; [assumption|]. split; [eauto|].
  split; [apply list_lookup_insert_eq; assumption|].
  unfold createChannel. cbn [channels subjects set_channels set_outbound set_subjects].
  rewrite Hgone. eexists _, _. split; [reflexivity|].
  rewrite length_insert. split; [lia|].
  cbn [subjects set_channels set_subjects].
  rewrite <- (length_insert (subjects s) h {| ch_name := name; ch_open := false |}).
  apply lookup_new_subject.
Qed.

Lemma X1_channel_error_witness :
  outbound (step job0 (run job0 body_channel_stream nothing_else)
              (ChannelFail 0 (AnyObject 1)))
  = outbound (run job0 body_channel_stream nothing_else)
    ++ [MsgChannelError job0 "c" (AnyObject 1)].
Proof.
  apply (X1_channel_error job0 "c" (AnyObject 1)
           (run job0 body_channel_stream nothing_else) 0).
  - apply Reachable_run.
  - reflexivity.
  - reflexivity.
Defined.

(** X2: whatever happens, a subject that [createChannel] made keeps
    its handle and its name, and once it is closed it is never open
    again: reopening a name makes a new subject. *)
Theorem X2_subjects_never_reopen (d : JobDescription) (s : Run) (es : list Event)
    (h : nat) (c : ChannelSubject) :
  subjects s !! h = Some c ->
  exists c', subjects (steps d s es) !! h = Some c' /\ ch_name c' = ch_name c /\
             (ch_open c = false -> ch_open c' = false).
Proof. intros Hc. exact (steps_grow d es s h c Hc). Qed.

Lemma X2_subjects_never_reopen_witness :
  exists c',
    subjects (steps job0 (run job0 body_channel_stream
                            {| early := []; later := [ChannelDone 0] |})
                [CallCreateChannel "c"; ChannelNext 1 one; Inbound Stop]) !! 0 = Some c' /\
    ch_name c' = "c" /\ (false = false -> ch_open c' = false).
Proof.
  apply (X2_subjects_never_reopen job0
           (run job0 body_channel_stream {| early := []; later := [ChannelDone 0] |})
           [CallCreateChannel "c"; ChannelNext 1 one; Inbound Stop]
           0 {| ch_name := "c"; ch_open := false |}).
  reflexivity.
Defined.

(** X3: once a handle has been completed or failed, nothing that is
    done with it later changes the run, whatever has happened in
    between; in particular it cannot take a reopened name out of the
    map. *)
Theorem X3_stale_handle (d : JobDescription) (s : Run) (h : nat) (c : ChannelSubject)
    (close : Event) (es : list Event) :
  subjects s !! h = Some c ->
  (close = ChannelDone h \/ exists err, close = ChannelFail h err) ->
  let s' := steps d (step d s close) es in
  (forall v, step d s' (ChannelNext h v) = s') /\
  (forall err, step d s' (ChannelFail h err) = s') /\
  step d s' (ChannelDone h) = s'.
Proof.
  intros Hc Hclose s'.
  assert (Hclosed : exists c1, subjects (step d s close) !! h = Some c1 /\ ch_open c1 = false).
  { destruct (closed_after d h c s Hc) as [Hdone Hfail].
    destruct Hclose as [->|[err ->]]; cbn [step]; [exact Hdone|apply Hfail]. }
  destruct Hclosed as (c1 & Hc1 & Ho1).
  destruct (steps_grow d es (step d s close) h c1 Hc1) as (c2 & Hc2 & _ & Ho2).
  apply (closed_handle_inert d h c2 s' Hc2). apply Ho2, Ho1.
Qed.

Lemma X3_stale_handle_witness :
  step job0
    (steps job0 (step job0 (run job0 body_channel_stream nothing_else) (ChannelDone 0))
       [CallCreateChannel "c"])
    (ChannelDone 0)
  = steps job0 (step job0 (run job0 body_channel_stream nothing_else) (ChannelDone 0))
      [CallCreateChannel "c"].
Proof.
  apply (X3_stale_handle job0 (run job0 body_channel_stream nothing_else) 0
           {| ch_name := "c"; ch_open := true |} (ChannelDone 0) [CallCreateChannel "c"]).
  - reflexivity.
  - left. reflexivity.
Defined.

(** X4: at every point of every run the map holds exactly the open
    subjects, under distinct names: two open channels never share a
    name. *)
Theorem X4_open_channels (d : JobDescription) (body : Body) (sched : Schedule) :
  let s := run d body sched in
  (exists m, channels s = Some m /\ NoDup (m.*1) /\
     forall name h, (name, h) ∈ m <->
       subjects s !! h = Some {| ch_name := name; ch_open := true |}) /\
  (forall name h1 h2,
     subjects s !! h1 = Some {| ch_name := name; ch_open := true |} ->
     subjects s !! h2 = Some {| ch_name := name; ch_open := true |} ->
     h1 = h2).
Proof.
  intros s. pose proof (run_chan_ok d body sched) as Hok. fold s in Hok.
  split; [exact Hok|].
  destruct Hok as (m & _ & Hnd & Hiff). intros name h1 h2 H1 H2.
  apply (map_key_unique name h1 h2 m Hnd); apply Hiff; assumption.
Qed.

Lemma X4_open_channels_witness : 0 = 0.
Proof.
  apply (X4_open_channels job0 body_channel_stream nothing_else) with (name := "c");
    reflexivity.
Defined.

(** ** The inbound callback over a whole run *)

Lemma early_closed d msgs s :
  inbound_open s = false -> foldl (fun s m => deliver d m s) s msgs = s.
Proof.
  intros Hi. induction msgs as [|m msgs IH]; simpl; [reflexivity|].
  unfold deliver at 2. rewrite Hi. exact IH.
Qed.

(** The inbox of a run to which no [Stop] came early. *)
Lemma run_inbox d body sched :
  no_Stop (early sched) = true ->
  inbound_open (run d body sched) = true /\
  uncaught (run d body sched) = [] /\
  inputChannel (run d body sched)
  = early_inputs (early sched) ++ event_inputs (sync body) ++ event_inputs (later sched).
Proof.
  intros Hn. unfold run, subscribe. rewrite started_no_Stop by assumption.
  set (s3 := mkRun _ _ _ _ _ _ _ _ _).
  assert (Hok3 : chan_ok s3).
  { exists []. split; [reflexivity|]. split; [apply NoDup_nil_2|].
    intros name h. subst s3. cbn. rewrite elem_of_nil. split; [tauto|discriminate]. }
  destruct (steps_inbox d (sync body) s3 (or_introl Hok3)) as (H1 & H2 & H3).
  destruct (dispatch_inbox d (result body) (steps d s3 (sync body))) as (H4 & H5 & H6).
  assert (Hok5 : chan_ok (dispatch d (result body) (steps d s3 (sync body))))
    by (apply dispatch_ok, steps_ok, Hok3).
  destruct (steps_inbox d (later sched) _ (or_introl Hok5)) as (H7 & H8 & H9).
  rewrite H7, H8, H9, H4, H5, H6, H1, H2, H3. subst s3. cbn.
  rewrite <- app_assoc. auto.
Qed.

Lemma stop_closes_all d s :
  chan_ok s -> inbound_open s = true ->
  channels (deliver d Stop s) = Some [] /\ all_closed (deliver d Stop s).
Proof.
  intros Hok Hi. pose proof Hok as (m & Hm & _).
  assert (Hc : channels (deliver d Stop s) = Some []).
  { rewrite (deliver_stop_eq d s m Hi Hm). apply forEach_complete_all.
    - eapply chan_ok_same; [|exact Hok].
      unfold subject_complete, subject_next, unsubscribe, teardown.
      run_fields s. destruct sub, t; split; reflexivity.
    - run_fields s. subst ch. destruct sub, t as [[|]|]; reflexivity. }
  split; [exact Hc|]. apply chan_ok_all_closed; [apply deliver_ok, Hok|exact Hc].
Qed.

(** X5: when no [Stop] arrives while [inboundBus] is being subscribed
    to, every [Input] value, whether it comes before, while or after
    the body is called, and also after the stream has ended, is pushed
    into [inputChannel] exactly once and in the order of arrival; the
    inbound callback never throws and is never unsubscribed. *)
Theorem X5_input_forwarding (d : JobDescription) (body : Body) (sched : Schedule) :
  no_Stop (early sched) = true ->
  inputChannel (run d body sched)
  = early_inputs (early sched) ++ event_inputs (sync body) ++ event_inputs (later sched) /\
  uncaught (run d body sched) = [] /\
  inbound_open (run d body sched) = true.
Proof.
  intros Hn. destruct (run_inbox d body sched Hn) as (H1 & H2 & H3). auto.
Qed.

Lemma X5_input_forwarding_witness :
  inputChannel (run job0 body_scalar
                  {| early := [Input one];
                     later := [Inbound (Input two); Inbound Stop; Inbound (Input three)] |})
  = [one; two; three].
Proof.
  apply (X5_input_forwarding job0 body_scalar
           {| early := [Input one];
              later := [Inbound (Input two); Inbound Stop; Inbound (Input three)] |}).
  reflexivity.
Defined.

(** X6: the subscription to [inboundBus] outlives the stream, so a
    [Stop] that arrives after the run has ended by itself (or failed)
    still completes every channel the body left open and empties the
    map, while the subscriber sees nothing of it. *)
Theorem X6_stop_after_end (d : JobDescription) (body : Body) (sched : Schedule) :
  no_Stop (early sched) = true ->
  let s := run d body sched in
  terminal s <> None ->
  outbound (step d s (Inbound Stop)) = outbound s /\
  terminal (step d s (Inbound Stop)) = terminal s /\
  channels (step d s (Inbound Stop)) = Some [] /\
  all_closed (step d s (Inbound Stop)).
Proof.
  intros Hn s Ht. destruct (run_inbox d body sched Hn) as (Hi & _ & _). fold s in Hi.
  pose proof (run_chan_ok d body sched) as Hok. fold s in Hok.
  destruct (stop_closes_all d s Hok Hi) as [Hc Hcl].
  destruct (deliver_frozen d Stop s) as [Ho Hte].
  { unfold isStopped. destruct (terminal s); [reflexivity|contradiction]. }
  cbn [step]. auto.
Qed.

Lemma X6_stop_after_end_witness :
  channels (run job0 body_channel_scalar nothing_else) = Some [("c", 0)] /\
  channels (step job0 (run job0 body_channel_scalar nothing_else) (Inbound Stop)) = Some [] /\
  outbound (step job0 (run job0 body_channel_scalar nothing_else) (Inbound Stop))
  = outbound (run job0 body_channel_scalar nothing_else).
Proof.
  split; [reflexivity|].
  split; apply (X6_stop_after_end job0 body_channel_scalar nothing_else);
    try reflexivity; discriminate.
Defined.

(** ** What is on the stream *)

Lemma early_described d msgs s :
  described d (outbound s) ->
  described d (outbound (foldl (fun s m => deliver d m s) s msgs)).
Proof.
  revert s. induction msgs as [|m msgs IH]; intros s H; simpl; [exact H|].
  apply IH. apply (step_described d (Inbound m)), H.
Qed.

Lemma early_bounded d msgs s :
  outputs_bounded 0 s ->
  outputs_bounded 0 (foldl (fun s m => deliver d m s) s msgs).
Proof.
  revert s. induction msgs as [|m msgs IH]; intros s H; simpl; [exact H|].
  apply IH. apply (step_bounded d 0 (Inbound m)), H.
Qed.

(** X7: every message of every run carries the description of the
    context the handler was called with. *)
Theorem X7_messages_carry_description (d : JobDescription) (body : Body) (sched : Schedule) :
  forall m, m ∈ outbound (run d body sched) -> message_description m = d.
Proof.
  apply Forall_forall. unfold run, subscribe.
  apply steps_described, dispatch_described, steps_described.
  cbn [outbound set_channels].
  apply (adds_described d (foldl (fun s m => deliver d m s) initial (early sched))).
  - apply adds_next; reflexivity.
  - apply early_described. constructor.
Qed.

Lemma X7_messages_carry_description_witness :
  message_description (MsgChannelMessage job0 "c" two) = job0.
Proof.
  apply (X7_messages_carry_description job0 body_chatty_scalar nothing_else).
  right. left.
Defined.

(** X8: a body that returns a plain value or a promise, or throws,
    gets at most one [Output] on the stream, whatever the schedule,
    and none at all if it throws. *)
Theorem X8_at_most_one_output (d : JobDescription) (body : Body) (sched : Schedule) :
  result body <> ReturnsObservable ->
  count isOutput (outbound (run d body sched)) <= 1 /\
  (forall err, result body = Throws err ->
     count isOutput (outbound (run d body sched)) = 0).
Proof.
  intros Hr.
  assert (H4 : outputs_bounded 0
                 (steps d (set_channels (Some [])
                    (subject_next (MsgStart d)
                       (foldl (fun s m => deliver d m s) initial (early sched))))
                    (sync body))).
  { apply steps_bounded.
    assert (H2 : outputs_bounded 0
                   (subject_next (MsgStart d)
                      (foldl (fun s m => deliver d m s) initial (early sched)))).
    { eapply (adds_bounded d); [apply adds_next; reflexivity|].
      apply early_bounded. split; [discriminate|simpl; lia]. }
    exact H2. }
  set (s4 := steps d _ (sync body)) in H4.
  pose proof (dispatch_bounded d (result body) s4 Hr H4) as [Hs5 Hn5].
  change (run d body sched) with (steps d (dispatch d (result body) s4) (later sched)).
  split.
  - destruct (steps_bounded d 1 (later sched) (dispatch d (result body) s4)) as [_ Hn].
    { split; [exact Hs5|]. destruct (result body); lia. }
    lia.
  - intros err He.
    destruct (steps_bounded d 0 (later sched) (dispatch d (result body) s4)) as [_ Hn].
    { split; [exact Hs5|]. rewrite He in Hn5 |- *. exact Hn5. }
    lia.
Qed.

Lemma X8_at_most_one_output_witness :
  count isOutput (outbound (run job0 body_promise
     {| early := []; later := [PromiseResolve one; PromiseResolve two; StreamNext three] |}))
  <= 1.
Proof.
  apply (X8_at_most_one_output job0 body_promise
           {| early := [];
              later := [PromiseResolve one; PromiseResolve two; StreamNext three] |}).
  discriminate.
Defined.

(** ** A [Stop] that comes before [Start] *)

(** X9: a [Stop] that [inboundBus] delivers while it is being
    subscribed to is handled before [Start] is sent and before the map
    exists: the stream is the answers to the earlier pings and then
    [End], it completes, and neither [Start] nor anything the body
    produces is ever sent; reading the map throws a [ReferenceError],
    the callback is unsubscribed, and no later inbound message is
    handled. *)
Theorem X9_stop_before_start (d : JobDescription) (body : Body)
    (msgs1 msgs2 : list JobInboundMessage) (es : list Event) :
  no_Stop msgs1 = true ->
  let s := run d body {| early := msgs1 ++ Stop :: msgs2; later := es |} in
  outbound s = early_pongs d msgs1 ++ [MsgEnd d] /\
  terminal s = Some Completed /\
  count isStart (outbound s) = 0 /\
  uncaught s = [ReferenceError "channels"] /\
  inbound_open s = false /\
  inputChannel s = early_inputs msgs1.
Proof.
  intros Hn s.
  set (sX := mkRun (early_pongs d msgs1 ++ [MsgEnd d]) (Some Completed) false None []
                   None false (early_inputs msgs1) [ReferenceError "channels"]).
  assert (H1 : foldl (fun s m => deliver d m s) initial (msgs1 ++ Stop :: msgs2) = sX).
  { rewrite foldl_app. simpl.
    rewrite (early_no_Stop d msgs1 initial eq_refl eq_refl Hn). cbn.
    apply early_closed. reflexivity. }
  set (sA := set_channels (Some []) (subject_next (MsgStart d) sX)).
  assert (Hrun : s = steps d (dispatch d (result body) (steps d sA (sync body))) es)
    by (subst s sA; unfold run, subscribe; cbn [early later]; rewrite H1; reflexivity).
  set (sB := steps d sA (sync body)) in *.
  set (sC := dispatch d (result body) sB) in *.
  assert (HA : isStopped sA = true) by reflexivity.
  destruct (steps_frozen d (sync body) sA HA) as [HoB HtB]. fold sB in HoB, HtB.
  assert (HB : isStopped sB = true) by (unfold isStopped; rewrite HtB; reflexivity).
  destruct (dispatch_frozen d (result body) sB HB) as [HoC HtC]. fold sC in HoC, HtC.
  assert (HC : isStopped sC = true) by (unfold isStopped; rewrite HtC, HtB; reflexivity).
  destruct (steps_frozen d es sC HC) as [HoD HtD]. rewrite <- Hrun in HoD, HtD.
  destruct (steps_inbox d (sync body) sA (or_intror eq_refl)) as (IB1 & IB2 & IB3).
  fold sB in IB1, IB2, IB3.
  destruct (dispatch_inbox d (result body) sB) as (IC1 & IC2 & IC3). fold sC in IC1, IC2, IC3.
  assert (HiC : inbound_open sC = false) by (rewrite IC1, IB1; reflexivity).
  destruct (steps_inbox d es sC (or_intror HiC)) as (ID1 & ID2 & ID3).
  rewrite <- Hrun in ID1, ID2, ID3. rewrite HiC in ID3.
  assert (Hout : outbound s = early_pongs d msgs1 ++ [MsgEnd d])
    by (rewrite HoD, HoC, HoB; reflexivity).
  split; [exact Hout|]. split; [rewrite HtD, HtC, HtB; reflexivity|].
  split; [|split; [|split]].
  - rewrite Hout, count_app.
    destruct (all_pongs_counts _ (all_pongs_early d msgs1)) as (-> & _). reflexivity.
  - rewrite ID2, IC2, IB2. reflexivity.
  - rewrite ID1. exact HiC.
  - rewrite ID3, app_nil_r, IC3, IB3. cbn. rewrite app_nil_r. reflexivity.
Qed.

Lemma X9_stop_before_start_witness :
  outbound (run job0 body_chatty_scalar
              {| early := [Ping 7] ++ Stop :: [Ping 8]; later := [Inbound (Ping 9)] |})
  = [MsgPong job0 7; MsgEnd job0].
Proof.
  apply (X9_stop_before_start job0 body_chatty_scalar [Ping 7] [Ping 8] [Inbound (Ping 9)]).
  reflexivity.
Defined.

(** ** A body that throws *)

(** X10: when the body throws, for one because it asked for a channel
    that is already open and did not catch the exception, and no [Stop]
    has come before, the stream fails with what was thrown, after
    [Start] and what the body's calls had emitted; there is no
    [Output] and no [End]. *)
Theorem X10_body_throws (d : JobDescription) (body : Body) (sched : Schedule) (err : JsAny) :
  result body = Throws err ->
  no_Stop (early sched) = true ->
  forallb quiet (sync body) = true ->
  let s := run d body sched in
  terminal s = Some (Failed err) /\
  (exists mid, outbound s = early_pongs d (early sched) ++ MsgStart d :: mid /\
               primary mid = []) /\
  primary (outbound s) = [MsgStart d] /\
  count isEnd (outbound s) = 0.
Proof.
  intros Hres Hn Hq s.
  destruct (body_returns d body (early sched) Hn Hq) as (mid & Ho & Ht & Hp & Hs & Hl & Hx).
  set (s4 := steps d _ (sync body)) in *.
  assert (Hrun : s = steps d (subject_error err s4) (later sched))
    by (subst s s4; unfold run, subscribe; rewrite Hres; reflexivity).
  assert (H5 : outbound (subject_error err s4) = outbound s4 /\
               terminal (subject_error err s4) = Some (Failed err)).
  { clear Hrun. run_fields s4. subst t. destruct sub; cbn; auto. }
  destruct H5 as [Ho5 Ht5].
  destruct (frozen_after d (later sched) _ (Failed err) Ht5) as [Ho6 Ht6].
  rewrite <- Hrun in Ho6, Ht6. rewrite Ho5, Ho in Ho6.
  split; [exact Ht6|]. split; [exists mid; auto|]. split.
  - rewrite Ho6, primary_app, primary_pongs. simpl. rewrite Hl. reflexivity.
  - rewrite Ho6, count_app. simpl.
    destruct (all_pongs_counts _ (all_pongs_early d (early sched))) as (_ & _ & ->).
    rewrite (primary_nil_no_End mid Hl). reflexivity.
Qed.

Lemma X10_body_throws_witness :
  terminal (run job0 body_throws nothing_else)
  = Some (Failed (AnyException (ChannelAlreadyExistException "c"))).
Proof.
  apply (X10_body_throws job0 body_throws nothing_else
           (AnyException (ChannelAlreadyExistException "c"))); reflexivity.
Defined.

(** ** Log entries *)

(** X11: the entries the body logs while the run is live become [Log]
    messages, one each and in the order they were logged; once the
    stream has ended they are dropped. *)
Theorem X11_log_forwarding (d : JobDescription) (entries : list LogEntry) (s : Run) :
  (terminal s = None ->
     steps d s (LoggerEntry <$> entries)
     = set_outbound (outbound s ++ (MsgLog d <$> entries)) s) /\
  (terminal s <> None -> steps d s (LoggerEntry <$> entries) = s).
Proof.
  split.
  - revert s. induction entries as [|entry entries IH]; intros s Ht.
    + simpl. rewrite app_nil_r. run_fields s. reflexivity.
    + rewrite fmap_cons. change (steps d s (LoggerEntry entry :: (LoggerEntry <$> entries)))
        with (steps d (step d s (LoggerEntry entry)) (LoggerEntry <$> entries)).
      cbn [step]. rewrite (subject_next_live _ s Ht), IH by exact Ht.
      cbn. rewrite <- app_assoc. reflexivity.
  - intros Ht. induction entries as [|entry entries IH]; [reflexivity|].
    rewrite fmap_cons. change (steps d s (LoggerEntry entry :: (LoggerEntry <$> entries)))
      with (steps d (step d s (LoggerEntry entry)) (LoggerEntry <$> entries)).
    cbn [step]. rewrite subject_next_stopped; [exact IH|].
    unfold isStopped. destruct (terminal s); [reflexivity|contradiction].
Qed.

Lemma X11_log_forwarding_witness :
  steps job0 (run job0 body_promise nothing_else)
    (LoggerEntry <$> [{| level := "info"; message := "a" |};
                      {| level := "warn"; message := "b" |}])
  = set_outbound
      (outbound (run job0 body_promise nothing_else)
       ++ (MsgLog job0 <$> [{| level := "info"; message := "a" |};
                            {| level := "warn"; message := "b" |}]))
      (run job0 body_promise nothing_else) /\
  steps job0 (run job0 body_scalar nothing_else)
    (LoggerEntry <$> [{| level := "info"; message := "a" |}])
  = run job0 body_scalar nothing_else.
Proof.
  split.
  - apply (X11_log_forwarding job0 _ (run job0 body_promise nothing_else)). reflexivity.
  - apply (X11_log_forwarding job0 _ (run job0 body_scalar nothing_else)). discriminate.
Defined.

(** ** The logging wrapper and the lazy loader *)

Section WrapperFacts.

Variable stringify_message : JobOutboundMessage -> JsAny + string.
Variable stringify_error : JsAny -> JsAny + string.

Lemma tap_values_whole ms (l : LoggerApi) :
  (tap_values (log_message stringify_message) ms l).1.2 = None ->
  (tap_values (log_message stringify_message) ms l).1.1 = ms.
Proof.
  revert l. induction ms as [|m ms IH]; intros l; simpl; [reflexivity|].
  destruct (log_message stringify_message m l) as [thrown|l1]; [discriminate|].
  specialize (IH l1). destruct (tap_values _ ms l1) as [[out failure] l2]. simpl in *.
  intros Hf. rewrite (IH Hf). reflexivity.
Qed.

Lemma tap_values_lines ms (l : LoggerApi) :
  (forall m, m ∈ ms -> exists text, stringify_message m = inr text) ->
  exists texts,
    Forall2 (fun m text => stringify_message m = inr text) ms texts /\
    tap_values (log_message stringify_message) ms l
    = (ms, None, l ++ ((fun text => ("info", "Message: " +:+ text)) <$> texts)).
Proof.
  revert l. induction ms as [|m ms IH]; intros l Hp.
  - exists []. split; [constructor|]. simpl. rewrite app_nil_r. reflexivity.
  - destruct (Hp m) as (text & Htext); [left|].
    destruct (IH (logger_info ("Message: " +:+ text) l)) as (texts & HF & Hl).
    { intros m' Hm'. apply Hp. right. exact Hm'. }
    exists (text :: texts). split; [constructor; assumption|].
    simpl. unfold log_message at 1. rewrite Htext, Hl.
    unfold logger_info. rewrite <- app_assoc. reflexivity.
Qed.

End WrapperFacts.

(** X12: whatever [JSON.stringify] does, the logging wrapper adds no
    message to the stream of the wrapped handler and changes none: what
    it delivers is the beginning of what the wrapped handler delivers,
    and its stream is that of the wrapped handler unless it fails. *)
Theorem X12_logger_adds_nothing
    (stringify_message : JobOutboundMessage -> JsAny + string)
    (stringify_error : JsAny -> JsAny + string)
    (job : JobHandler) (logger : LoggerApi)
    (argument : JsonValue) (context : JobHandlerContext) (sched : Schedule) :
  let t := call job argument context sched in
  let w := call (createLoggerJob stringify_message stringify_error job logger)
             argument context sched in
  (exists rest, delivered t = delivered w ++ rest) /\
  (w = t \/ exists thrown, ending w = Some (Failed thrown)).
Proof.
  intros t w. subst w. cbn [call createLoggerJob]. unfold createLoggerJob_outbound, tap. fold t.
  destruct (tap_values_prefix stringify_message (delivered t) ([] : LoggerApi)) as (rest & Hrest).
  pose proof (tap_values_whole stringify_message (delivered t) ([] : LoggerApi)) as Hwhole.
  destruct (tap_values _ (delivered t) ([] : LoggerApi)) as [[out failure] l1]. simpl in *.
  destruct failure as [thrown|].
  - split; [exists rest; exact Hrest|]. right. eauto.
  - rewrite (Hwhole eq_refl). clear Hrest Hwhole.
    assert (Hnil : forall ms : list JobOutboundMessage, exists rest, ms = ms ++ rest)
      by (intros ms; exists []; rewrite app_nil_r; reflexivity).
    destruct t as [ms [[|err]|]]; cbn [ending delivered] in *.
    + simpl. split; [apply Hnil|left; reflexivity].
    + unfold log_error. destruct (stringify_error err); simpl;
        (split; [apply Hnil|]); [right; eauto|left; reflexivity].
    + simpl. split; [apply Hnil|left; reflexivity].
Qed.

(** X13: when [JSON.stringify] prints every message of the wrapped
    stream and the value it fails with, if it fails, the tap on that
    stream writes to the logger, in this order, one info line
    ["Message: ..."] per message, in the order of the messages, and
    then ["Completed"] as info if the stream completes, or
    ["Error: ..."] as a warning if it fails, and nothing more if it
    does not end.  (The logger also receives the ["Input: ..."] lines
    of the other tap, in between.) *)
Theorem X13_logger_lines
    (stringify_message : JobOutboundMessage -> JsAny + string)
    (stringify_error : JsAny -> JsAny + string)
    (job : JobHandler)
    (argument : JsonValue) (context : JobHandlerContext) (sched : Schedule) :
  let t := call job argument context sched in
  (forall m, m ∈ delivered t -> exists text, stringify_message m = inr text) ->
  (forall err, ending t = Some (Failed err) -> exists text, stringify_error err = inr text) ->
  exists texts,
    Forall2 (fun m text => stringify_message m = inr text) (delivered t) texts /\
    snd (createLoggerJob_outbound stringify_message stringify_error job
           argument context sched)
    = ((fun text => ("info", "Message: " +:+ text)) <$> texts)
      ++ ending_lines stringify_error (ending t).
Proof.
  intros t Hm He.
  destruct (tap_values_lines stringify_message (delivered t) ([] : LoggerApi) Hm) as (texts & HF & Hl).
  exists texts. split; [exact HF|].
  unfold createLoggerJob_outbound, tap. fold t. rewrite Hl. rewrite app_nil_l.
  destruct t as [ms [[|err]|]]; cbn [ending delivered ending_lines] in *.
  - reflexivity.
  - destruct (He err eq_refl) as (text & Htext). unfold log_error. rewrite Htext.
    reflexivity.
  - simpl. rewrite app_nil_r. reflexivity.
Qed.

Lemma X13_logger_lines_witness :
  exists texts,
    Forall2 (fun m text => sample_stringify_message m = inr text)
      (delivered (call promise_job one context0
                    {| early := [Ping 7]; later := [PromiseResolve two] |})) texts /\
    snd (createLoggerJob_outbound sample_stringify_message sample_stringify_error promise_job
           one context0 {| early := [Ping 7]; later := [PromiseResolve two] |})
    = ((fun text => ("info", "Message: " +:+ text)) <$> texts)
      ++ ending_lines sample_stringify_error
           (ending (call promise_job one context0
                      {| early := [Ping 7]; later := [PromiseResolve two] |})).
Proof.
  apply (X13_logger_lines sample_stringify_message sample_stringify_error
           promise_job one context0 {| early := [Ping 7]; later := [PromiseResolve two] |}).
  - intros m _. exists "{}". reflexivity.
  - intros err H. discriminate H.
Defined.

(** X14: it makes no difference to the stream whether a lazily loaded
    handler is wrapped in the logger from outside or the loader wraps
    what it loads, as long as [JSON.stringify] prints what the loader
    rejects with, if it rejects; and either way the handler has the
    [jobDescription] given to [createJobFactory]. *)
Theorem X14_logger_factory_commute
    (stringify_message : JobOutboundMessage -> JsAny + string)
    (stringify_error : JsAny -> JsAny + string)
    (loader : unit -> Loaded) (options : JobDescription) (logger : LoggerApi)
    (argument : JsonValue) (context : JobHandlerContext) (sched : Schedule) :
  (forall err, loader tt = LoadRejects err -> exists text, stringify_error err = inr text) ->
  call (createLoggerJob stringify_message stringify_error
          (createJobFactory loader options) logger) argument context sched
  = call (createJobFactory
            (logging_loader stringify_message stringify_error logger loader) options)
         argument context sched /\
  jobDescription (createLoggerJob stringify_message stringify_error
                    (createJobFactory loader options) logger) = Some options /\
  jobDescription (createJobFactory
                    (logging_loader stringify_message stringify_error logger loader) options)
  = Some options.
Proof.
  intros Hrej. split; [|split].
  - unfold createLoggerJob, createJobFactory, createLoggerJob_outbound, logging_loader.
    cbn [call].
    destruct (loader tt) as [h|err|] eqn:Hl.
    + reflexivity.
    + destruct (Hrej err eq_refl) as (text & Htext).
      unfold tap. simpl. unfold log_error. rewrite Htext. reflexivity.
    + reflexivity.
  - unfold jobDescription. cbn [properties createLoggerJob createJobFactory].
    rewrite !Object_assign_fresh. apply lookup_singleton_eq.
  - unfold jobDescription. cbn [properties createJobFactory].
    rewrite Object_assign_fresh. apply lookup_singleton_eq.
Qed.

Lemma X14_logger_factory_commute_witness :
  call (createLoggerJob sample_stringify_message sample_stringify_error
          (createJobFactory sample_loader job0) []) one context0
       {| early := []; later := [PromiseResolve two] |}
  = call (createJobFactory
            (logging_loader sample_stringify_message sample_stringify_error [] sample_loader)
            job0) one context0 {| early := []; later := [PromiseResolve two] |}.
Proof.
  apply (X14_logger_factory_commute sample_stringify_message sample_stringify_error
           sample_loader job0 [] one context0
           {| early := []; later := [PromiseResolve two] |}).
  intros err H. discriminate H.
Defined.

(** X15: the tap on [inboundBus] writes to the logger one info line
    ["Input: ..."] for each message the bus delivers, in their order,
    up to the first message that [JSON.stringify] throws on; it writes
    nothing for that message nor for any later one. *)
Theorem X15_logger_input_lines
    (stringify_inbound : JobInboundMessage -> JsAny + string)
    (msgs : list JobInboundMessage) :
  exists texts,
    createLoggerJob_inbound stringify_inbound msgs
    = ((fun text => ("info", "Input: " +:+ text)) <$> texts) /\
    Forall2 (fun m text => stringify_inbound m = inr text)
      (take (length texts) msgs) texts /\
    (length texts = length msgs \/
     exists m thrown,
       msgs !! length texts = Some m /\ stringify_inbound m = inl thrown).
Proof.
  induction msgs as [|m msgs IH].
  - exists []. split; [reflexivity|]. split; [constructor|]. left. reflexivity.
  - cbn [createLoggerJob_inbound].
    destruct (stringify_inbound m) as [thrown|text] eqn:Hm.
    + exists []. split; [reflexivity|]. split; [constructor|].
      right. exists m, thrown. split; [reflexivity|exact Hm].
    + destruct IH as (texts & Hl & HF & Hend).
      exists (text :: texts). split; [|split].
      * rewrite Hl. reflexivity.
      * cbn [length take]. constructor; [exact Hm|exact HF].
      * cbn [length]. destruct Hend as [Hlen|(m' & thrown & Hlook & Hthrown)].
        -- left. rewrite Hlen. reflexivity.
        -- right. exists m', thrown. split; [exact Hlook|exact Hthrown].
Qed.
